(** * crawl4ai-mcp: the chunker, the crawl loop, the robots filter and the
      synthesis pipeline, embedded from the JavaScript sources.

    - [src/utils.js]            : [createChunks], [estimateTokenCount]
    - crawler module            : [crawlWebsite], [extractLinks],
                                  [parseRobotsTxt], [isDisallowed]
    - processor module          : [processText]

    JavaScript strings are sequences of UTF-16 code units; they are modelled
    as lists of code units, so [length] is [String.prototype.length]. *)

From Stdlib Require Import String Ascii.
From Stdlib Require QArith.
From stdpp Require Import base option list gmap sets pretty.

Local Open Scope nat_scope.

Notation "a >? b" := (Nat.ltb b a) (at level 70, only parsing) : nat_scope.

(** ** JavaScript strings *)

Module JS.

(** A string literal as its code units. *)
Fixpoint str (s : string) : list N :=
  match s with
  | EmptyString => []
  | String c r => N_of_ascii c :: str r
  end.

(** [WhiteSpace] and [LineTerminator] code points of ECMAScript: the class
    matched by [\s] in a regular expression and stripped by [trim]. *)
Definition isWhiteSpace (c : N) : bool :=
  ((9 <=? c) && (c <=? 13) ||
   (c =? 32) || (c =? 160) || (c =? 5760) ||
   (8192 <=? c) && (c <=? 8202) ||
   (c =? 8232) || (c =? 8233) || (c =? 8239) || (c =? 8287) ||
   (c =? 12288) || (c =? 65279))%N.

Definition LF : N := 10.
Definition SPACE : N := 32.

(** [s.startsWith(p)] *)
Fixpoint startsWith (s p : list N) {struct p} : bool :=
  match p, s with
  | [], _ => true
  | a :: p', b :: s' => (a =? b)%N && startsWith s' p'
  | _ :: _, [] => false
  end.

(** [s.slice(i, j)] for [0 <= i <= j]. *)
Definition slice (s : list N) (i j : nat) : list N := take (j - i) (drop i s).

(** [parts.join(sep)] *)
Fixpoint join (sep : list N) (parts : list (list N)) : list N :=
  match parts with
  | [] => []
  | [p] => p
  | p :: rest => p ++ sep ++ join sep rest
  end.

(** The maximal run of white space at the head of [s]. *)
Fixpoint wsRun (s : list N) : nat :=
  match s with
  | c :: r => if isWhiteSpace c then S (wsRun r) else 0
  | [] => 0
  end.

(** *** [String.prototype.split] with a regular expression

    A matcher is the regular expression run at one position: it sees the
    code unit before the position (for a lookbehind) and the rest of the
    string, and gives the length of the match.  [splitLoop] is the loop of
    the specification: [acc] is [S[p..q)] back to front, [skip] counts the code
    units of the last match still to be passed over. *)
Definition matcher := option N → list N → option nat.

Fixpoint splitLoop (m : matcher) (prev : option N) (skip : nat)
    (acc : list N) (s : list N) : list (list N) :=
  match s with
  | [] => [reverse acc]
  | c :: r =>
    match skip with
    | S k => splitLoop m (Some c) k acc r
    | O =>
      match m prev s with
      | Some (S k) => reverse acc :: splitLoop m (Some c) k [] r
      | Some O =>
          (* an empty match: a split point unless it ends where the last
             one did *)
          if bool_decide (acc = []) then splitLoop m (Some c) 0 [c] r
          else reverse acc :: splitLoop m (Some c) 0 [c] r
      | None => splitLoop m (Some c) 0 (c :: acc) r
      end
    end
  end.

Definition split (m : matcher) (s : list N) : list (list N) :=
  match s with
  | [] => match m None [] with Some _ => [] | None => [[]] end
  | _ => splitLoop m None 0 [] s
  end.

(** [/\n\s*\n/]: a line feed, then white space taken greedily and given
    back until a line feed follows: the match ends at the last line feed of
    the white-space run that follows the first one. *)
Fixpoint lastLF (run : nat) (s : list N) : option nat :=
  match run, s with
  | S k, c :: r =>
      match lastLF k r with
      | Some i => Some (S i)
      | None => if (c =? LF)%N then Some 0 else None
      end
  | _, _ => None
  end.

Definition paragraphBreak : matcher := fun _ s =>
  match s with
  | c :: r =>
      if (c =? LF)%N then
        match lastLF (wsRun r) r with
        | Some i => Some (S (S i))
        | None => None
        end
      else None
  | [] => None
  end.

(** [/(?<=[.!?])\s+/]: white space, as much as there is, when the code unit
    before it ends a sentence. *)
Definition endsSentence (c : N) : bool :=
  ((c =? 46) || (c =? 33) || (c =? 63))%N.

Definition sentenceBreak : matcher := fun prev s =>
  match prev with
  | Some p =>
      if endsSentence p then
        match wsRun s with
        | O => None
        | n => Some n
        end
      else None
  | None => None
  end.

(** The text with its white space removed. *)
Fixpoint nonWhite (s : list N) : list N :=
  match s with
  | [] => []
  | c :: r => if isWhiteSpace c then nonWhite r else c :: nonWhite r
  end.

Definition allWhite (s : list N) : Prop := Forall (λ c, isWhiteSpace c = true) s.

(** A matcher that only ever takes a non-empty stretch of white space. *)
Definition whiteMatcher (m : matcher) : Prop :=
  ∀ prev s n, m prev s = Some n →
    0 < n ∧ n ≤ length s ∧ allWhite (take n s).

End JS.

Import JS.

(** ** [src/utils.js]: [createChunks] *)

Module Utils.

(** The innermost loop,
    [for (let i = 0; i < sentence.length; i += maxChunkSize)]: with
    [maxChunkSize = 0] it never ends, which the fuel makes visible. *)
Fixpoint sliceLoop (fuel : nat) (sentence : list N) (maxChunkSize i : nat)
    (chunks : list (list N)) : option (list (list N)) :=
  if i <? length sentence then
    match fuel with
    | O => None
    | S f =>
        sliceLoop f sentence maxChunkSize (i + maxChunkSize)
          (chunks ++ [slice sentence i (i + maxChunkSize)])
    end
  else Some chunks.

(** [for (const sentence of sentences)], on the pair
    [(chunks, sentenceChunk)]. *)
Fixpoint sentenceLoop (maxChunkSize : nat) (sentences : list (list N))
    (chunks : list (list N)) (sentenceChunk : list N)
    : option (list (list N) * list N) :=
  match sentences with
  | [] => Some (chunks, sentenceChunk)
  | sentence :: rest =>
    if (length sentenceChunk + length sentence >? maxChunkSize) then
      let chunks1 :=
        if (length sentenceChunk >? 0) then chunks ++ [sentenceChunk]
        else chunks in
      let sentenceChunk1 :=
        if (length sentenceChunk >? 0) then [] else sentenceChunk in
      if (length sentence >? maxChunkSize) then
        chunks2 ← sliceLoop (length sentence) sentence maxChunkSize 0 chunks1;
        sentenceLoop maxChunkSize rest chunks2 sentenceChunk1
      else sentenceLoop maxChunkSize rest chunks1 sentence
    else
      sentenceLoop maxChunkSize rest chunks
        (sentenceChunk
           ++ (if decide (sentenceChunk = []) then [] else str " ")
           ++ sentence)
  end.

(** [for (const paragraph of paragraphs)], on the pair
    [(chunks, currentChunk)]. *)
Fixpoint paragraphLoop (maxChunkSize : nat) (paragraphs : list (list N))
    (chunks : list (list N)) (currentChunk : list N)
    : option (list (list N) * list N) :=
  match paragraphs with
  | [] => Some (chunks, currentChunk)
  | paragraph :: rest =>
    if (length currentChunk + length paragraph + 2 >? maxChunkSize) then
      let chunks1 :=
        if (length currentChunk >? 0) then chunks ++ [currentChunk]
        else chunks in
      let currentChunk1 :=
        if (length currentChunk >? 0) then [] else currentChunk in
      if (length paragraph >? maxChunkSize) then
        let sentences := split sentenceBreak paragraph in
        '(chunks2, sentenceChunk) ← sentenceLoop maxChunkSize sentences chunks1 [];
        let chunks3 :=
          if (length sentenceChunk >? 0) then chunks2 ++ [sentenceChunk]
          else chunks2 in
        paragraphLoop maxChunkSize rest chunks3 currentChunk1
      else paragraphLoop maxChunkSize rest chunks1 paragraph
    else
      paragraphLoop maxChunkSize rest chunks
        (currentChunk
           ++ (if decide (currentChunk = []) then [] else [LF; LF])
           ++ paragraph)
  end.

(** [createChunks(text, maxChunkSize)]; [None] is a call that never
    returns. *)
Definition createChunks (text : list N) (maxChunkSize : nat)
    : option (list (list N)) :=
  if length text <=? maxChunkSize then Some [text]
  else
    let paragraphs := split paragraphBreak text in
    '(chunks, currentChunk) ← paragraphLoop maxChunkSize paragraphs [] [];
    Some (if (length currentChunk >? 0) then chunks ++ [currentChunk]
          else chunks).

End Utils.

Import Utils.

(** ** What [createChunks] is measured against *)

Module ChunkSpec.

(** The separators [createChunks] puts between the pieces it joins, and the
    empty one where it starts a new chunk. *)
Definition separators : list (list N) := [[]; [SPACE]; [LF; LF]].

(** [wsNorm t o]: [o] is [t] with some non-empty stretches of white space
    replaced by one of the separators; every other code unit is kept, in
    order. *)
Inductive wsNorm : list N → list N → Prop :=
  | wsNorm_nil : wsNorm [] []
  | wsNorm_keep c t o : wsNorm t o → wsNorm (c :: t) (c :: o)
  | wsNorm_sep w w' t o :
      w ≠ [] → allWhite w → w' ∈ separators → wsNorm t o →
      wsNorm (w ++ t) (w' ++ o).

(** A text cut into pieces: each piece with the white space before it. *)
Definition segText (segs : list (list N * list N)) : list N :=
  concat (map (λ wp, wp.1 ++ wp.2) segs).

Definition sepSeg (wp : list N * list N) : Prop := allWhite wp.1 ∧ wp.1 ≠ [].

(** The pieces still to come, seen from an accumulator [cur]: only the
    first one may lack white space before it, and only when the accumulator
    is empty. *)
Definition goodSegs (cur : list N) (segs : list (list N * list N)) : Prop :=
  match segs with
  | [] => True
  | wp :: rest => allWhite wp.1 ∧ (wp.1 ≠ [] ∨ cur = []) ∧ Forall sepSeg rest
  end.

(** [cutBy m s segs]: [segs] are the pieces of [s.split(m)], in order, each
    with what stood before it in [s]: nothing before the first piece, a
    non-empty stretch of white space, the split point, before every other
    one. *)
Definition cutBy (m : matcher) (s : list N)
    (segs : list (list N * list N)) : Prop :=
  map snd segs = split m s
  ∧ segText segs = s
  ∧ match segs with
    | [] => False
    | wp :: rest => wp.1 = [] ∧ Forall sepSeg rest
    end.

(** Pieces put back together: every piece is kept as it is, and the white
    space before it is dropped or, where there was some, replaced by
    [sep]. *)
Inductive rejoined (sep : list N) : list (list N * list N) → list N → Prop :=
  | rejoined_nil : rejoined sep [] []
  | rejoined_cons w p segs o w' :
      w' = [] ∨ (w ≠ [] ∧ w' = sep) →
      rejoined sep segs o →
      rejoined sep ((w, p) :: segs) (w' ++ p ++ o).

(** The paragraphs of a text put back together the way [createChunks] does
    for the ceiling [M].  A paragraph of at most [M] code units is kept as
    it is, white space inside it included, and the paragraph break before
    it is dropped or replaced by a blank line.  A longer paragraph is cut
    at its sentence breaks; its sentences are kept as they are and the
    breaks between them are dropped or replaced by one space; the
    paragraph break before it is dropped. *)
Inductive chunkedText (M : nat) : list (list N * list N) → list N → Prop :=
  | chunked_nil : chunkedText M [] []
  | chunked_small w p segs o w' :
      length p ≤ M →
      w' = [] ∨ (w ≠ [] ∧ w' = [LF; LF]) →
      chunkedText M segs o →
      chunkedText M ((w, p) :: segs) (w' ++ p ++ o)
  | chunked_big w p segs o sentences p' :
      M < length p →
      cutBy sentenceBreak p sentences →
      rejoined [SPACE] sentences p' →
      chunkedText M segs o →
      chunkedText M ((w, p) :: segs) (p' ++ o).

End ChunkSpec.

Import ChunkSpec.

(** ** More of the string model: what the crawler uses *)

Module JSText.

(** [s.split(c)] with a one-character string [c]. *)
Fixpoint splitChar (c : N) (s : list N) : list (list N) :=
  match s with
  | [] => [[]]
  | x :: r =>
      if (x =? c)%N then [] :: splitChar c r
      else match splitChar c r with
           | p :: ps => (x :: p) :: ps
           | [] => [[x]]
           end
  end.

Fixpoint trimStart (s : list N) : list N :=
  match s with
  | c :: r => if isWhiteSpace c then trimStart r else s
  | [] => []
  end.

(** [s.trim()] *)
Definition trim (s : list N) : list N :=
  reverse (trimStart (reverse (trimStart s))).

(** [s.toLowerCase()] on the letters A to Z.  The callers only compare the
    result with ASCII keywords; outside A to Z the only code units whose
    lower case holds an ASCII letter are U+212A (k) and U+0130 (i followed
    by U+0307), and no keyword below can be completed by either. *)
Definition lowerUnit (c : N) : N :=
  if ((65 <=? c) && (c <=? 90))%N then (c + 32)%N else c.

Definition toLowerCase (s : list N) : list N := map lowerUnit s.

(** [[...new Set(xs)]]: the first occurrence of each element, in order. *)
Fixpoint dedupe (seen : gset (list N)) (xs : list (list N)) : list (list N) :=
  match xs with
  | [] => []
  | x :: r =>
      if decide (x ∈ seen) then dedupe seen r
      else x :: dedupe ({[x]} ∪ seen) r
  end.

(** The names every object literal inherits from [Object.prototype]:
    [obj[name]] is a function (or, for [__proto__], the prototype itself)
    although [obj] has no such property of its own. *)
Definition objectPrototypeKeys : list (list N) :=
  map str
    ["constructor"; "__defineGetter__"; "__defineSetter__"; "hasOwnProperty";
     "__lookupGetter__"; "__lookupSetter__"; "isPrototypeOf";
     "propertyIsEnumerable"; "toString"; "valueOf"; "__proto__";
     "toLocaleString"]%string.

Definition inherited (k : list N) : bool := bool_decide (k ∈ objectPrototypeKeys).

End JSText.

Import JSText.

(** ** The [URL] class, as far as the crawler reads it *)

Record URL := {
  protocol : list N;       (* with its colon: "https:" *)
  hostname : list N;
  port : list N;
  pathname : list N;
}.

(** [url.origin] for the schemes the crawler meets. *)
Definition origin (u : URL) : list N :=
  protocol u ++ str "//" ++ hostname u
    ++ (if decide (port u = []) then [] else str ":" ++ port u).

(** ** The crawler module: robots.txt *)

Module Robots.

(** [{ allow: {}, disallow: {} }]: two objects from user agent to the list
    of its path prefixes; the maps hold the objects' own properties. *)
Record RobotsRules := {
  allow : gmap (list N) (list (list N));
  disallow : gmap (list N) (list (list N));
}.

(** [if (!obj[key]) obj[key] = [];]: an array is truthy even when empty, and
    so is whatever [Object.prototype] gives for an inherited name. *)
Definition ensure (obj : gmap (list N) (list (list N))) (key : list N)
    : gmap (list N) (list (list N)) :=
  match obj !! key with
  | Some _ => obj
  | None => if inherited key then obj else <[key := []]> obj
  end.

(** [obj[key].push(path)]: [None] is the [TypeError] raised when [obj[key]]
    is an inherited member, which has no [push]. *)
Definition push (obj : gmap (list N) (list (list N))) (key path : list N)
    : option (gmap (list N) (list (list N))) :=
  match obj !! key with
  | Some paths => Some (<[key := paths ++ [path]]> obj)
  | None => None
  end.

(** [trimmedLine.split(':')[1].trim()]; [None] is the [TypeError] of
    [undefined.trim()]. *)
Definition afterColon (trimmedLine : list N) : option (list N) :=
  trim <$> (splitChar 58 trimmedLine !! 1).

(** One turn of [for (const line of lines)], on the pair
    [(rules, currentUserAgent)]. *)
Definition parseLine (st : RobotsRules * list N) (line : list N)
    : option (RobotsRules * list N) :=
  let '(rules, currentUserAgent) := st in
  let trimmedLine := trim line in
  if startsWith trimmedLine (str "#") || bool_decide (trimmedLine = []) then
    Some st
  else if startsWith (toLowerCase trimmedLine) (str "user-agent:") then
    agent ← afterColon trimmedLine;
    Some ({| allow := ensure (allow rules) agent;
             disallow := ensure (disallow rules) agent |}, agent)
  else if startsWith (toLowerCase trimmedLine) (str "allow:") then
    path ← afterColon trimmedLine;
    allow' ← push (ensure (allow rules) currentUserAgent) currentUserAgent path;
    Some ({| allow := allow'; disallow := disallow rules |}, currentUserAgent)
  else if startsWith (toLowerCase trimmedLine) (str "disallow:") then
    path ← afterColon trimmedLine;
    disallow' ←
      push (ensure (disallow rules) currentUserAgent) currentUserAgent path;
    Some ({| allow := allow rules; disallow := disallow' |}, currentUserAgent)
  else Some st.

Fixpoint parseLines (st : RobotsRules * list N) (lines : list (list N))
    : option (RobotsRules * list N) :=
  match lines with
  | [] => Some st
  | line :: rest => st' ← parseLine st line; parseLines st' rest
  end.

Definition wildcard : list N := str "*".

(** [parseRobotsTxt(robotsTxt)]; [None] is a [TypeError] thrown on the way. *)
Definition parseRobotsTxt (robotsTxt : list N) : option RobotsRules :=
  fst <$> parseLines ({| allow := ∅; disallow := ∅ |}, wildcard)
            (splitChar LF robotsTxt).

(** [rules.disallow['*'] || []] and [rules.allow['*'] || []] *)
Definition wildcardRules (obj : gmap (list N) (list (list N)))
    : list (list N) :=
  default [] (obj !! wildcard).

(** The two [for] loops of [isDisallowed]: whether some rule is a prefix of
    the path. *)
Definition anyPrefix (path : list N) (rules : list (list N)) : bool :=
  existsb (startsWith path) rules.

Section WithURL.

Variable parseURL : list N → option URL.   (* [new URL(url)], [None] if it throws *)

(** [isDisallowed(url, rules)].  [rules = None] is the empty object [{}]
    that [crawlWebsite] starts from: reading [rules.disallow['*']] then
    throws, and the [catch] answers [false] as it does for a URL that does
    not parse. *)
Definition isDisallowed (url : list N) (rules : option RobotsRules) : bool :=
  match parseURL url with
  | None => false
  | Some urlObj =>
      let path := pathname urlObj in
      match rules with
      | None => false
      | Some rules =>
          let disallowRules := wildcardRules (disallow rules) in
          let allowRules := wildcardRules (allow rules) in
          if anyPrefix path allowRules then false
          else if anyPrefix path disallowRules then true
          else false
      end
  end.

End WithURL.

End Robots.

Import Robots.

(** ** The crawler module: [crawlWebsite] *)

Module Crawler.

(** One entry of [results]. *)
Record PageData := {
  url : list N;
  title : list N;
  description : list N;
  content : list N;
  html : list N;
  crawledAt : list N;
}.

(** What the browser gives for one page once it is loaded: the values the
    code reads from it, and what [page.evaluate] returns inside
    [extractLinks], one entry per anchor ([None] for the [null] of an
    anchor whose address does not resolve).  [anchors = None] is
    [extractLinks] throwing. *)
Record Rendered := {
  pageTitle : list N;
  innerText : list N;
  metaDescription : list N;
  pageHtml : list N;
  clock : list N;
  anchors : option (list (option (list N)));
}.

(** The world outside: the URL parser, [fetch] of a text, and the browser.
    A page is loaded at most once in a run, so what the browser gives is
    taken as a function of the address (with the selector and the settle
    time the code passes along); [None] is any step before [results.push]
    throwing. *)
Record Web := {
  parseURL : list N → option URL;
  fetchText : list N → option (list N);
  render : list N → list N → nat → option Rendered;
}.

Record Options := {
  depth : nat;
  selector : list N;
  maxPages : nat;
  respectRobotsTxt : bool;
  waitTime : nat;
}.

(** [options = {}] *)
Definition defaultOptions : Options :=
  {| depth := 1; selector := str "body"; maxPages := 100;
     respectRobotsTxt := true; waitTime := 1000 |}.

(** [.filter(Boolean)] on the anchors: [null] and the empty string go. *)
Definition filterBoolean (xs : list (option (list N))) : list (list N) :=
  omap (λ x, match x with
             | Some (c :: s) => Some (c :: s)
             | _ => None
             end) xs.

(** [extractLinks(page, baseUrl)], given what [page.evaluate] returned. *)
Definition extractLinks (evaluated : list (option (list N))) : list (list N) :=
  dedupe ∅ (filterBoolean evaluated).

(** The state of the loop.  [attempts] is not a variable of the program: it
    records, in order, the address and depth of every entry that got as far
    as [visited.add(url)], that is every page the browser was sent to. *)
Record State := {
  visited : gset (list N);
  queue : list (list N * nat);
  results : list PageData;
  attempts : list (list N * nat);
}.

(** One turn of the loop goes on with a new state, or throws. *)
Inductive Step :=
  | Continue (st : State)
  | Throw (st : State).

Section WithWeb.

Variable web : Web.
Variable options : Options.
Variable baseUrl : URL.
Variable robotsRules : option RobotsRules.

(** [for (const link of links) if (!visited.has(link)) queue.push(...)] *)
Definition enqueue (visited : gset (list N)) (links : list (list N))
    (d : nat) : list (list N * nat) :=
  (λ link, (link, d)) <$> filter (λ link, link ∉ visited) links.

(** The body of the [while] loop on a queue whose head is [(url,
    currentDepth)]. *)
Definition body (st : State) (url : list N) (currentDepth : nat)
    (rest : list (list N * nat)) : Step :=
  let st := {| visited := visited st; queue := rest;
               results := results st; attempts := attempts st |} in
  if decide (url ∈ visited st) then Continue st
  else if respectRobotsTxt options
          && isDisallowed (parseURL web) url robotsRules then Continue st
  else
    match parseURL web url with
    | None => Throw st
    | Some urlObj =>
      if decide (hostname urlObj ≠ hostname baseUrl) then Continue st
      else
        let visited' := {[url]} ∪ visited st in
        let attempts' := attempts st ++ [(url, currentDepth)] in
        match render web url (selector options) (waitTime options) with
        | None =>
            Continue {| visited := visited'; queue := rest;
                        results := results st; attempts := attempts' |}
        | Some page =>
            let results' :=
              results st ++
                [{| url := url; title := pageTitle page;
                    description := metaDescription page;
                    content := innerText page; html := pageHtml page;
                    crawledAt := clock page |}] in
            let queue' :=
              if currentDepth <? depth options then
                match anchors page with
                | Some evaluated =>
                    rest ++ enqueue visited' (extractLinks evaluated)
                              (currentDepth + 1)
                | None => rest
                end
              else rest in
            Continue {| visited := visited'; queue := queue';
                        results := results'; attempts := attempts' |}
        end
    end.

(** [while (queue.length > 0 && results.length < maxPages)]; [None] when
    the fuel runs out before the loop ends. *)
Fixpoint loop (fuel : nat) (st : State) : option Step :=
  match queue st with
  | (url, currentDepth) :: rest =>
      if length (results st) <? maxPages options then
        match fuel with
        | O => None
        | S fuel' =>
            match body st url currentDepth rest with
            | Continue st' => loop fuel' st'
            | Throw st' => Some (Throw st')
            end
        end
      else Some (Continue st)
  | [] => Some (Continue st)
  end.

End WithWeb.

(** How a call ends: it returns, or throws [Error(`Invalid URL: ...`)] before
    anything is fetched, or lets the [TypeError] of [new URL(url)] in the
    loop escape. *)
Inductive Outcome :=
  | Returned (results : list PageData)
  | InvalidURL (startUrl : list N)
  | Uncaught.

(** The same with the state the loop had reached. *)
Inductive Run :=
  | Finished (st : State)
  | Rejected (startUrl : list N)
  | Aborted (st : State).

Definition lastState (r : Run) : option State :=
  match r with
  | Finished st | Aborted st => Some st
  | Rejected _ => None
  end.

(** The robots rules [crawlWebsite] ends up with. *)
Definition loadRobots (web : Web) (options : Options) (baseUrl : URL)
    : option RobotsRules :=
  if respectRobotsTxt options then
    text ← fetchText web
             (protocol baseUrl ++ str "//" ++ hostname baseUrl
                ++ str "/robots.txt");
    parseRobotsTxt text
  else None.

Definition initial (startUrl : list N) : State :=
  {| visited := ∅; queue := [(startUrl, 0)]; results := []; attempts := [] |}.

(** [crawlWebsite] up to the end of its loop. *)
Definition crawl (web : Web) (fuel : nat) (startUrl : list N)
    (options : Options) : option Run :=
  match parseURL web startUrl with
  | None => Some (Rejected startUrl)
  | Some baseUrl =>
      match loop web options baseUrl (loadRobots web options baseUrl)
              fuel (initial startUrl) with
      | Some (Continue st) => Some (Finished st)
      | Some (Throw st) => Some (Aborted st)
      | None => None
      end
  end.

(** [crawlWebsite(startUrl, options)] *)
Definition crawlWebsite (web : Web) (fuel : nat) (startUrl : list N)
    (options : Options) : option Outcome :=
  match crawl web fuel startUrl options with
  | Some (Finished st) => Some (Returned (results st))
  | Some (Rejected u) => Some (InvalidURL u)
  | Some (Aborted _) => Some Uncaught
  | None => None
  end.

End Crawler.

Import Crawler.

(** ** A small world to run the crawler in *)

Module Example.

Definition delim (c : N) : bool := ((c =? 47) || (c =? 63) || (c =? 35))%N.

Fixpoint upTo (stop : N → bool) (s : list N) : list N * list N :=
  match s with
  | [] => ([], [])
  | c :: r => if stop c then ([], s) else let '(a, b) := upTo stop r in (c :: a, b)
  end.

(** Plain absolute addresses, [scheme://host[:port][/path][?query][#frag]],
    read the way [new URL] reads them; anything else does not parse. *)
Definition simpleURL (s : list N) : option URL :=
  let '(scheme, r) := upTo (λ c, (c =? 58)%N) s in
  if bool_decide (scheme = []) || negb (startsWith r (str "://")) then None
  else
    let '(authority, r) := upTo delim (drop 3 r) in
    let '(host, p) := upTo (λ c, (c =? 58)%N) authority in
    if bool_decide (host = []) then None
    else
      let '(path, _) := upTo (λ c, (c =? 63) || (c =? 35))%N r in
      Some {| protocol := scheme ++ str ":"; hostname := host;
              port := drop 1 p;
              pathname := if bool_decide (path = []) then str "/" else path |}.

(** A site: its robots file, if it serves one, and for each address that
    loads the addresses its anchors resolve to. *)
Fixpoint lookupPage (pages : list (string * list string)) (u : list N)
    : option (list string) :=
  match pages with
  | [] => None
  | (address, links) :: rest =>
      if decide (str address = u) then Some links else lookupPage rest u
  end.

Definition site (robots : option string) (pages : list (string * list string))
    : Web :=
  {| parseURL := simpleURL;
     fetchText := λ _, str <$> robots;
     render := λ u _ _,
       links ← lookupPage pages u;
       Some {| pageTitle := u; innerText := []; metaDescription := [];
               pageHtml := []; clock := [];
               anchors := Some ((λ l, Some (str l)) <$> links) |} |}.

End Example.

Import Example.

(** ** What the crawl is measured against *)

Module CrawlSpec.

Definition stateOf (s : Step) : State :=
  match s with Continue st | Throw st => st end.

Section WithWeb.

Variable web : Web.
Variable options : Options.
Variable baseUrl : URL.
Variable robotsRules : option RobotsRules.

(** Same host name as the start address. *)
Definition inScope (u : list N) : Prop :=
  ∃ uo, parseURL web u = Some uo ∧ hostname uo = hostname baseUrl.

(** Not turned away by the robots check. *)
Definition allowed (u : list N) : Prop :=
  respectRobotsTxt options && isDisallowed (parseURL web) u robotsRules = false.

Definition loads (u : list N) (page : Rendered) : Prop :=
  render web u (selector options) (waitTime options) = Some page.

(** The links [extractLinks] returns for a page, none if it throws. *)
Definition linksOf (page : Rendered) : list (list N) :=
  match anchors page with
  | Some evaluated => extractLinks evaluated
  | None => []
  end.

Definition popped (st : State) (rest : list (list N * nat)) : State :=
  {| visited := visited st; queue := rest;
     results := results st; attempts := attempts st |}.

Definition marked (st : State) (u : list N) (d : nat)
    (queue' : list (list N * nat)) (results' : list PageData) : State :=
  {| visited := {[u]} ∪ visited st; queue := queue';
     results := results'; attempts := attempts st ++ [(u, d)] |}.

Definition record (u : list N) (page : Rendered) : PageData :=
  {| url := u; title := pageTitle page; description := metaDescription page;
     content := innerText page; html := pageHtml page;
     crawledAt := clock page |}.

(** The ways one turn of the loop can go, for the entry [(u, d)] taken
    from the head of the queue. *)
Inductive Turn (st : State) (u : list N) (d : nat)
    (rest : list (list N * nat)) : Step → Prop :=
  | turn_seen :
      u ∈ visited st → Turn st u d rest (Continue (popped st rest))
  | turn_robots :
      u ∉ visited st → ¬ allowed u →
      Turn st u d rest (Continue (popped st rest))
  | turn_throw :
      u ∉ visited st → allowed u → parseURL web u = None →
      Turn st u d rest (Throw (popped st rest))
  | turn_foreign uo :
      u ∉ visited st → allowed u → parseURL web u = Some uo →
      hostname uo ≠ hostname baseUrl →
      Turn st u d rest (Continue (popped st rest))
  | turn_failed :
      u ∉ visited st → allowed u → inScope u →
      render web u (selector options) (waitTime options) = None →
      Turn st u d rest (Continue (marked st u d rest (results st)))
  | turn_fetched page :
      u ∉ visited st → allowed u → inScope u → loads u page →
      Turn st u d rest
        (Continue
           (marked st u d
              (rest ++ (if d <? depth options
                        then enqueue ({[u]} ∪ visited st) (linksOf page) (d + 1)
                        else []))
              (results st ++ [record u page]))).

(** The addresses a complete crawl can come across: the start address,
    and the links of every page that is in scope, allowed, loads, and was
    found at a depth below the limit. *)
Inductive discoverable (startUrl : list N) : list N → nat → Prop :=
  | disc_seed : discoverable startUrl startUrl 0
  | disc_link p k page u :
      discoverable startUrl p k → k < depth options →
      inScope p → allowed p → loads p page → u ∈ linksOf page →
      discoverable startUrl u (S k).

(** The queue holds entries of one depth followed by entries one deeper,
    and nothing attempted so far was deeper than the first. *)
Definition layered (st : State) : Prop :=
  ∃ m qa qb,
    queue st = qa ++ qb
    ∧ Forall (λ e, e.2 = m) qa ∧ Forall (λ e, e.2 = S m) qb
    ∧ Forall (λ e, e.2 ≤ m) (attempts st).

(** An address found at depth [k] is accounted for: waiting in the queue or
    attempted, at depth [k] or less, or turned away by scope or robots. *)
Definition covered (st : State) (u : list N) (k : nat) : Prop :=
  (∃ j, j ≤ k ∧ (u, j) ∈ queue st)
  ∨ (∃ j, j ≤ k ∧ (u, j) ∈ attempts st)
  ∨ ¬ (inScope u ∧ allowed u).

Definition closed (startUrl : list N) (st : State) : Prop :=
  covered st startUrl 0
  ∧ ∀ p k page u,
      (p, k) ∈ attempts st → k < depth options → loads p page →
      u ∈ linksOf page → covered st u (S k).

End WithWeb.

End CrawlSpec.

Import CrawlSpec.

(** ** Invariants of the crawl loop *)

Module CrawlInv.

Section WithWeb.

Variable web : Web.
Variable options : Options.
Variable baseUrl : URL.
Variable startUrl : list N.

(** Every page the browser was sent to is on the start address's host. *)
Definition sameHost (st : State) : Prop :=
  Forall (λ e, inScope web baseUrl e.1) (attempts st).

(** The visited set is the set of addresses attempted, each once. *)
Definition onceEach (st : State) : Prop :=
  NoDup (attempts st).*1 ∧ ∀ u, u ∈ visited st ↔ u ∈ (attempts st).*1.

(** [results] holds the record of each attempt that loaded, in the order
    of the attempts. *)
Definition recorded (st : State) : Prop :=
  results st =
  omap (λ e, record e.1 <$> render web e.1 (selector options) (waitTime options))
       (attempts st).

(** Nothing queued or attempted is deeper than [depth]. *)
Definition shallow (st : State) : Prop :=
  Forall (λ e, e.2 ≤ depth options) (queue st ++ attempts st).

(** Every entry is the start address at depth 0, or a link of a page
    attempted one level up, below the depth limit. *)
Definition linked (st : State) : Prop :=
  Forall (λ e, e = (startUrl, 0)
               ∨ ∃ p k page, e.2 = S k ∧ (p, k) ∈ attempts st
                   ∧ k < depth options ∧ loads web options p page
                   ∧ e.1 ∈ linksOf page)
         (queue st ++ attempts st).

Definition bounded (st : State) : Prop :=
  length (results st) ≤ maxPages options.

End WithWeb.

End CrawlInv.

Import CrawlInv.

(** All of the above, for one run. *)
Definition crawlInv (web : Web) (options : Options) (baseUrl : URL)
    (startUrl : list N) (st : State) : Prop :=
  sameHost web baseUrl st ∧ onceEach st ∧ recorded web options st
  ∧ shallow options st ∧ linked web options startUrl st
  ∧ bounded options st ∧ layered st
  ∧ closed web options baseUrl (loadRobots web options baseUrl) startUrl st.

(** ** Sites for the examples *)

Module Sites.

Local Open Scope string_scope.

(** A page that links to the same host under another scheme. *)
Definition mixedSchemes : Web :=
  site None
    [("https://a.test/", ["https://a.test/b"; "http://a.test/c";
                          "https://b.test/"]);
     ("https://a.test/b", []);
     ("http://a.test/c", []);
     ("https://b.test/", [])].

(** A chain three links long. *)
Definition chain : Web :=
  site None
    [("https://a.test/", ["https://a.test/1"]);
     ("https://a.test/1", ["https://a.test/2"]);
     ("https://a.test/2", ["https://a.test/3"]);
     ("https://a.test/3", [])].

(** Two pages that both link to a third. *)
Definition diamond : Web :=
  site None
    [("https://a.test/", ["https://a.test/l"; "https://a.test/r"]);
     ("https://a.test/l", ["https://a.test/x"]);
     ("https://a.test/r", ["https://a.test/x"]);
     ("https://a.test/x", [])].

(** A start page with six links. *)
Definition hub : Web :=
  site None
    [("https://a.test/", ["https://a.test/1"; "https://a.test/2";
                          "https://a.test/3"; "https://a.test/4";
                          "https://a.test/5"; "https://a.test/6"]);
     ("https://a.test/1", []); ("https://a.test/2", []);
     ("https://a.test/3", []); ("https://a.test/4", []);
     ("https://a.test/5", []); ("https://a.test/6", [])].

(** A site whose robots file closes [/private]. *)
Definition gated : Web :=
  site (Some "User-agent: *
Disallow: /private")
    [("https://a.test/", ["https://a.test/private/x"; "https://a.test/public"]);
     ("https://a.test/private/x", []);
     ("https://a.test/public", [])].

(** A site with a link to a page that does not load. *)
Definition broken : Web :=
  site None
    [("https://a.test/", ["https://a.test/missing"; "https://a.test/ok"]);
     ("https://a.test/ok", [])].


End Sites.

(** ** The processor module: [processText] *)

Module Processor.

(** The argument of [anthropicClient.messages.create]. *)
Record Request := {
  requestModel : list N;
  max_tokens : nat;
  requestTemperature : QArith_base.Q;
  userMessage : list N;
}.

(** The client, once there is one: what the [n]-th call of
    [messages.create] in this run gives for a request, the text
    [completion.content[0].text] or the message of the error thrown
    instead. *)
Definition Client := nat → Request → list N + list N.

Record ProcessOptions := {
  task : list N;
  model : list N;
  maxTokens : nat;
  temperature : QArith_base.Q;
}.

(** [options = {}] *)
Definition defaultProcessOptions : ProcessOptions :=
  {| task := str "summarize"; model := str "claude-3-sonnet-20240229";
     maxTokens := 4000; temperature := QArith_base.Qmake 7 10 |}.

Record Meta := {
  metaModel : list N;
  processedAt : list N;
  pagesProcessed : nat;
  chunksProcessed : nat;
}.

(** The two shapes [processText] returns: [{ error, originalResults }]
    and [{ task, result, meta, originalResults }]. *)
Inductive ProcessResult :=
  | Skipped (error : list N) (originalResults : list PageData)
  | Synthesis (task result : list N) (meta : Meta)
      (originalResults : list PageData).

(** [`${n}`] for a number *)
Definition decimal (n : nat) : list N := str (pretty n).

(** [`## Page: ${page.title} (${page.url})\n\n${page.content}\n\n`] *)
Definition pageBlock (page : PageData) : list N :=
  str "## Page: " ++ title page ++ str " (" ++ url page ++ str ")" ++ [LF; LF]
    ++ content page ++ [LF; LF].

Definition combineText (crawlResults : list PageData) : list N :=
  join (str "
---

") (pageBlock <$> crawlResults).

(** The [switch (task.toLowerCase())] that builds the prompt. *)
Definition promptFor (task chunk : list N) : list N :=
  let t := toLowerCase task in
  if decide (t = str "summarize") then
    str "Please provide a comprehensive summary of the following web content. Focus on the main points, key information, and overall themes:

" ++ chunk ++ str "

Provide a well-structured summary with key points, important details, and main conclusions."
  else if decide (t = str "extract") then
    str "Please extract all factual information from the following web content:

" ++ chunk ++ str "

Format the information as a list of verified facts found in the content."
  else if decide (t = str "analyze") then
    str "Please analyze the following web content:

" ++ chunk ++ str "

Provide:
1. Main topic overview
2. Key arguments or claims made
3. Evidence presented
4. Logical fallacies or biases (if any)
5. Quality assessment of the information
6. Connections between concepts
7. Areas where information might be missing"
  else if decide (t = str "questions") then
    str "Based on the following web content:

" ++ chunk ++ str "

Generate 10 important questions that someone might have after reading this content, along with detailed answers based solely on the information provided."
  else
    str "Please " ++ task ++ str " the following web content:

" ++ chunk.

Definition combiningPrompt (finalResult : list N) : list N :=
  str "You've analyzed multiple chunks of web content and provided separate analyses. Please combine and synthesize these separate analyses into a single coherent response:

" ++ finalResult ++ str "

Provide a unified, well-structured response that combines all the information without repetition.".

Definition request (options : ProcessOptions) (prompt : list N) : Request :=
  {| requestModel := model options; max_tokens := maxTokens options;
     requestTemperature := temperature options; userMessage := prompt |}.

(** [`[Error processing chunk ${i+1}: ${error.message}]`] *)
Definition errorNote (i : nat) (message : list N) : list N :=
  str "[Error processing chunk " ++ decimal (i + 1) ++ str ": " ++ message
    ++ str "]".

(** [for (let i = 0; i < chunks.length; i++)], from index [i] on, with the
    chunks still to do; the calls made so far are as many as the chunks
    done. *)
Fixpoint chunkLoop (client : Client) (options : ProcessOptions)
    (todo : list (list N)) (i : nat) (processedChunks : list (list N))
    : list (list N) :=
  match todo with
  | [] => processedChunks
  | chunk :: rest =>
      let prompt := promptFor (task options) chunk in
      match client i (request options prompt) with
      | inl text => chunkLoop client options rest (i + 1) (processedChunks ++ [text])
      | inr message =>
          chunkLoop client options rest (i + 1)
            (processedChunks ++ [errorNote i message])
      end
  end.

(** [processText(crawlResults, options)].  [anthropicClient] is the module
    variable, [None] when no API key is set; [now] is what
    [new Date().toISOString()] gives at the end; the result is [None] only
    if [createChunks] does not return. *)
Definition processText (anthropicClient : option Client) (now : list N)
    (crawlResults : list PageData) (options : ProcessOptions)
    : option ProcessResult :=
  match anthropicClient with
  | None =>
      Some (Skipped (str "Anthropic API key not configured") crawlResults)
  | Some client =>
      let combinedText := combineText crawlResults in
      chunks ← createChunks combinedText (N.to_nat 100000);
      let processedChunks := chunkLoop client options chunks 0 [] in
      let finalResult := join [LF; LF] processedChunks in
      let finalResult :=
        if length processedChunks >? 1 then
          match client (length chunks)
                  (request options (combiningPrompt finalResult)) with
          | inl text => text
          | inr _ => finalResult
          end
        else finalResult in
      Some (Synthesis (task options) finalResult
              {| metaModel := model options; processedAt := now;
                 pagesProcessed := length crawlResults;
                 chunksProcessed := length chunks |}
              crawlResults)
  end.

End Processor.

Import Processor.

(** ** What the synthesis is measured against *)

Module ProcessSpec.

(** What is kept for the chunk at index [i]: the generated text, or the
    note that stands in for it when the call fails. *)
Definition chunkOutput (client : Client) (options : ProcessOptions)
    (i : nat) (chunk : list N) : list N :=
  match client i (request options (promptFor (task options) chunk)) with
  | inl text => text
  | inr message =>
      str "[Error processing chunk " ++ decimal (i + 1) ++ str ": "
        ++ message ++ str "]"
  end.

(** [needle] occurs in [hay]. *)
Definition contains (needle hay : list N) : Prop :=
  ∃ before after, hay = before ++ needle ++ after.



(** A client whose second call fails; the fourth, the combining call,
    answers [combined]. *)
Definition secondFails (combined : list N + list N) : Client :=
  λ n _,
    if decide (n = 1) then inr (str "overloaded")
    else if decide (n = 3) then combined
    else inl (str "summary").

End ProcessSpec.

Import ProcessSpec.

(** The attempts come in order of depth. *)
Definition byDepth (st : State) : Prop :=
  ∀ i j e f, i ≤ j → attempts st !! i = Some e → attempts st !! j = Some f →
             e.2 ≤ f.2.

(** No attempt was turned away by the robots check. *)
Definition permitted (web : Web) (options : Options)
    (robotsRules : option RobotsRules) (st : State) : Prop :=
  Forall (λ e, allowed web options robotsRules e.1) (attempts st).

(** ** [src/utils.js]: [estimateTokenCount] *)

Module UtilsMore.

(** [Math.ceil(text.length / 4)]: the quotient by a power of two is exact
    in floating point, so the ceiling is the one of the rationals. *)
Definition estimateTokenCount (text : list N) : nat :=
  (length text + 3) / 4.

End UtilsMore.

Import UtilsMore.

(** Runs a crawl on a concrete site and names the state it ends in. *)
Ltac crawled web fuel seed opts :=
  let r := eval vm_compute in (crawl web fuel seed opts) in
  lazymatch r with
  | Some (Finished ?st) =>
      exists (Finished st), st;
      split; [vm_compute; reflexivity|]; split; [reflexivity|]
  end.

(** * Theorems *)

(** ** Properties of the string model *)

Section StringFacts.

Lemma nonWhite_app s t : nonWhite (s ++ t) = nonWhite s ++ nonWhite t.
Proof.
  induction s as [|c s IH]; simpl; [done|].
  destruct (isWhiteSpace c); simpl; by rewrite IH.
Qed.

Lemma nonWhite_allWhite w : allWhite w → nonWhite w = [].
Proof.
  induction 1 as [|c w Hc _ IH]; simpl; [done|]. by rewrite Hc.
Qed.

Lemma wsRun_le s : wsRun s ≤ length s.
Proof.
  induction s as [|c s IH]; simpl; [lia|]. destruct (isWhiteSpace c); simpl; lia.
Qed.

Lemma wsRun_allWhite s : allWhite (take (wsRun s) s).
Proof.
  induction s as [|c s IH]; simpl; [constructor|].
  destruct (isWhiteSpace c) eqn:Hc; simpl; constructor; done.
Qed.

Lemma allWhite_take n s k : n ≤ k → allWhite (take k s) → allWhite (take n s).
Proof.
  intros Hn Hk. replace (take n s) with (take n (take k s)).
  - by apply Forall_take.
  - rewrite take_take. f_equal. lia.
Qed.

Lemma lastLF_lt run s i : lastLF run s = Some i → i < run ∧ i < length s.
Proof.
  revert s i. induction run as [|k IH]; intros [|c r] i; simpl; try done.
  destruct (lastLF k r) as [j|] eqn:Hj.
  - intros [= <-]. apply IH in Hj. lia.
  - destruct (c =? LF)%N; [|done]. intros [= <-]. lia.
Qed.

End StringFacts.

Lemma paragraphBreak_white : whiteMatcher paragraphBreak.
Proof.
  intros prev [|c r] n; simpl; [done|].
  destruct (c =? LF)%N eqn:Hc; [|done].
  destruct (lastLF (wsRun r) r) as [i|] eqn:Hi; [|done].
  intros [= <-]. apply lastLF_lt in Hi as [Hrun Hlen].
  split; [lia|]. split; [lia|].
  apply N.eqb_eq in Hc as ->.
  change (allWhite (LF :: take (S i) r)). apply Forall_cons. split; [done|].
  apply (allWhite_take _ _ (wsRun r)); [lia|apply wsRun_allWhite].
Qed.

Lemma sentenceBreak_white : whiteMatcher sentenceBreak.
Proof.
  intros [p|] s n; simpl; [|done].
  destruct (endsSentence p); [|done].
  destruct (wsRun s) as [|k] eqn:Hk; [done|].
  intros [= <-]. split; [lia|]. rewrite <- Hk.
  split; [apply wsRun_le|apply wsRun_allWhite].
Qed.

(** ** [createChunks] *)

Section ChunkerFacts.

Lemma wsNorm_refl t : wsNorm t t.
Proof. induction t; constructor; done. Qed.

Lemma wsNorm_app t1 o1 t2 o2 :
  wsNorm t1 o1 → wsNorm t2 o2 → wsNorm (t1 ++ t2) (o1 ++ o2).
Proof.
  induction 1 as [|c t o _ IH|w w' t o Hw Hws Hsep _ IH]; intros H2; simpl.
  - done.
  - constructor. by apply IH.
  - rewrite <- !app_assoc. constructor; auto.
Qed.

Lemma wsNorm_nonWhite t o : wsNorm t o → nonWhite o = nonWhite t.
Proof.
  induction 1 as [|c t o _ IH|w w' t o Hw Hws Hsep _ IH]; simpl.
  - done.
  - destruct (isWhiteSpace c); by rewrite IH.
  - rewrite !nonWhite_app, IH, (nonWhite_allWhite w) by done.
    f_equal. unfold separators in Hsep.
    repeat (apply elem_of_cons in Hsep as [ -> | Hsep ]; [done|]).
    by apply elem_of_nil in Hsep.
Qed.

Lemma sep_mem w' : w' = [] ∨ w' = [SPACE] ∨ w' = [LF; LF] → w' ∈ separators.
Proof.
  unfold separators. intros [Hw|[Hw|Hw]]; subst w'; repeat constructor.
Qed.

Lemma wsNorm_piece w w' p :
  allWhite w → w' ∈ separators → (w ≠ [] ∨ w' = []) →
  wsNorm (w ++ p) (w' ++ p).
Proof.
  intros Hw Hsep Hne. destruct (decide (w = [])) as [ -> | Hw0 ].
  - destruct Hne as [ | -> ]; [done|]. apply wsNorm_refl.
  - constructor; auto using wsNorm_refl.
Qed.

Lemma wsNorm_drop w : allWhite w → wsNorm w [].
Proof.
  intros Hw. destruct (decide (w = [])) as [ -> | Hw0 ]; [constructor|].
  rewrite <- (app_nil_r w). change (wsNorm (w ++ []) ([] ++ [])).
  constructor; auto; [|constructor]. apply sep_mem; auto.
Qed.

Lemma sliceLoop_spec M sentence :
  0 < M → ∀ fuel i chunks,
  length sentence ≤ i + fuel * M →
  ∃ sl, sliceLoop fuel sentence M i chunks = Some (chunks ++ sl)
        ∧ concat sl = drop i sentence
        ∧ Forall (λ c, 0 < length c ∧ length c ≤ M) sl.
Proof.
  intros HM. induction fuel as [|f IH]; intros i chunks Hlen; simpl.
  - destruct (i <? length sentence) eqn:Hi.
    { apply Nat.ltb_lt in Hi. lia. }
    exists []. rewrite app_nil_r, drop_ge by lia. repeat split; constructor.
  - destruct (i <? length sentence) eqn:Hi.
    + apply Nat.ltb_lt in Hi.
      destruct (IH (i + M) (chunks ++ [slice sentence i (i + M)]))
        as (sl & -> & Hcat & Hall); [lia|].
      exists (slice sentence i (i + M) :: sl).
      rewrite <- app_assoc. split; [done|]. unfold slice.
      replace (i + M - i) with M by lia. simpl. split.
      * rewrite Hcat, <- (drop_drop sentence M i), take_drop. done.
      * constructor; [|done]. rewrite length_take, length_drop. lia.
    + apply Nat.ltb_ge in Hi.
      exists []. rewrite app_nil_r, drop_ge by lia. repeat split; constructor.
Qed.

Lemma splitLoop_segs m :
  whiteMatcher m → ∀ s prev skip acc,
  (skip = 0 ∨ acc = []) → skip ≤ length s → allWhite (take skip s) →
  ∃ p segs,
    splitLoop m prev skip acc s = (reverse acc ++ p) :: map snd segs
    ∧ drop skip s = p ++ segText segs
    ∧ Forall sepSeg segs.
Proof.
  intros Hm. induction s as [|c r IH]; intros prev skip acc Hsk Hlen Hws.
  - exists [], []. simpl. rewrite app_nil_r, drop_nil. auto.
  - destruct skip as [|k]; simpl.
    + destruct (m prev (c :: r)) as [[|k]|] eqn:Hmatch.
      * apply Hm in Hmatch. lia.
      * apply Hm in Hmatch as (_ & Hk & Hw). simpl in Hk.
        change (allWhite (c :: take k r)) in Hw.
        apply Forall_cons in Hw as [Hc Hw].
        destruct (IH (Some c) k []) as (p & segs & -> & Hdrop & Hsegs);
          [auto|lia|done|].
        exists [], ((c :: take k r, p) :: segs). simpl.
        rewrite app_nil_r. split; [done|]. split.
        -- unfold segText. simpl. fold (segText segs).
           rewrite <- app_assoc, <- Hdrop, take_drop. done.
        -- constructor; [|done]. split; [by constructor|done].
      * destruct (IH (Some c) 0 (c :: acc)) as (p & segs & -> & Hdrop & Hsegs);
          [auto|lia|constructor|].
        exists (c :: p), segs. rewrite reverse_cons, <- app_assoc. simpl.
        split; [done|]. split; [|done]. simpl in Hdrop. by rewrite <- Hdrop.
    + destruct Hsk as [ | -> ]; [done|]. simpl in Hlen.
      change (allWhite (c :: take k r)) in Hws.
      apply Forall_cons in Hws as [_ Hws].
      destruct (IH (Some c) k []) as (p & segs & -> & Hdrop & Hsegs);
        [auto|lia|done|].
      exists p, segs. auto.
Qed.

Lemma split_segs m s :
  whiteMatcher m →
  ∃ segs, split m s = map snd segs ∧ segText segs = s ∧ goodSegs [] segs.
Proof.
  intros Hm. destruct s as [|c r].
  - simpl. destruct (m None []) as [n|] eqn:Hn.
    { apply Hm in Hn. simpl in Hn. lia. }
    exists [([], [])]. repeat split; auto; constructor.
  - destruct (splitLoop_segs m Hm (c :: r) None 0 [])
      as (p & segs & Heq & Hdrop & Hsegs); [auto|simpl; lia|constructor|].
    exists (([], p) :: segs). simpl in Hdrop.
    change (split m (c :: r)) with (splitLoop m None 0 [] (c :: r)).
    rewrite Heq.
    split; [done|]. split.
    + unfold segText. simpl. fold (segText segs). by rewrite Hdrop.
    + repeat split; auto. constructor.
Qed.

End ChunkerFacts.

(** What [if (chunk.length > 0) chunks.push(chunk)] does to the text held
    in [chunks]. *)
Lemma concat_flush (chunks : list (list N)) (cur : list N) :
  concat (if length cur >? 0 then chunks ++ [cur] else chunks)
  = concat chunks ++ cur.
Proof.
  destruct (length cur >? 0) eqn:Hc.
  - rewrite concat_app. simpl. by rewrite app_nil_r.
  - apply Nat.ltb_ge in Hc. destruct cur; simpl in Hc; [|lia].
    by rewrite app_nil_r.
Qed.

Lemma flush_rest (cur : list N) :
  (if length cur >? 0 then [] else cur) = [].
Proof.
  destruct (length cur >? 0) eqn:Hc; [done|].
  apply Nat.ltb_ge in Hc. destruct cur; simpl in Hc; [done|lia].
Qed.

Lemma goodSegs_tail cur wp segs cur' :
  goodSegs cur (wp :: segs) → goodSegs cur' segs.
Proof.
  intros (_ & _ & Hrest). destruct segs as [|wp' rest]; [done|].
  apply Forall_cons in Hrest as [[Hw Hne] Hrest]. repeat split; auto.
Qed.

Lemma segText_cons wp segs :
  segText (wp :: segs) = wp.1 ++ wp.2 ++ segText segs.
Proof. unfold segText. simpl. by rewrite <- app_assoc. Qed.

Section ChunkerLoops.

Variable M : nat.
Hypothesis M_pos : 0 < M.

Lemma sentenceLoop_cons sentence rest chunks sentenceChunk :
  sentenceLoop M (sentence :: rest) chunks sentenceChunk =
  if (length sentenceChunk + length sentence >? M) then
    if (length sentence >? M) then
      chunks2 ← sliceLoop (length sentence) sentence M 0
                  (if (length sentenceChunk >? 0) then chunks ++ [sentenceChunk]
                   else chunks);
      sentenceLoop M rest chunks2
        (if (length sentenceChunk >? 0) then [] else sentenceChunk)
    else sentenceLoop M rest
           (if (length sentenceChunk >? 0) then chunks ++ [sentenceChunk]
            else chunks) sentence
  else
    sentenceLoop M rest chunks
      (sentenceChunk
         ++ (if decide (sentenceChunk = []) then [] else str " ") ++ sentence).
Proof. reflexivity. Qed.

Lemma paragraphLoop_cons paragraph rest chunks currentChunk :
  paragraphLoop M (paragraph :: rest) chunks currentChunk =
  if (length currentChunk + length paragraph + 2 >? M) then
    if (length paragraph >? M) then
      '(chunks2, sentenceChunk) ←
         sentenceLoop M (split sentenceBreak paragraph)
           (if (length currentChunk >? 0) then chunks ++ [currentChunk]
            else chunks) [];
      paragraphLoop M rest
        (if (length sentenceChunk >? 0) then chunks2 ++ [sentenceChunk]
         else chunks2)
        (if (length currentChunk >? 0) then [] else currentChunk)
    else paragraphLoop M rest
           (if (length currentChunk >? 0) then chunks ++ [currentChunk]
            else chunks) paragraph
  else
    paragraphLoop M rest chunks
      (currentChunk
         ++ (if decide (currentChunk = []) then [] else [LF; LF]) ++ paragraph).
Proof. reflexivity. Qed.

Lemma sentenceLoop_norm segs : ∀ chunks cur seen,
  goodSegs cur segs →
  wsNorm seen (concat chunks ++ cur) →
  ∃ chunks' cur',
    sentenceLoop M (map snd segs) chunks cur = Some (chunks', cur')
    ∧ wsNorm (seen ++ segText segs) (concat chunks' ++ cur').
Proof.
  induction segs as [|[w p] segs IH]; intros chunks cur seen Hgood Hseen.
  - exists chunks, cur. simpl. by rewrite app_nil_r.
  - assert (Htail : ∀ cur', goodSegs cur' segs)
      by (intros; eapply goodSegs_tail, Hgood).
    destruct Hgood as (Hw & Hne & _). simpl in Hw, Hne.
    rewrite segText_cons. cbn [map snd fst]. rewrite sentenceLoop_cons.
    assert (Hflush : wsNorm (seen ++ w ++ p) ((concat chunks ++ cur) ++ p)).
    { apply wsNorm_app; [exact Hseen|]. apply (wsNorm_piece w [] p); auto.
      apply sep_mem; auto. }
    destruct (length cur + length p >? M) eqn:Hover.
    + rewrite flush_rest. destruct (length p >? M) eqn:Hbig.
      * destruct (sliceLoop_spec M p M_pos (length p) 0
                    (if length cur >? 0 then chunks ++ [cur] else chunks))
          as (sl & -> & Hcat & _); [nia|]. cbn [mbind option_bind].
        destruct (IH (((if length cur >? 0 then chunks ++ [cur] else chunks)) ++ sl)
                    [] (seen ++ w ++ p)) as (chunks' & cur' & -> & Hn); [done| |].
        { rewrite concat_app, concat_flush, Hcat, app_nil_r. done. }
        exists chunks', cur'. split; [done|].
        by rewrite <- !app_assoc in Hn.
      * destruct (IH (if length cur >? 0 then chunks ++ [cur] else chunks)
                    p (seen ++ w ++ p)) as (chunks' & cur' & -> & Hn); [done| |].
        { by rewrite concat_flush. }
        exists chunks', cur'. split; [done|].
        by rewrite <- !app_assoc in Hn.
    + destruct (IH chunks
                  (cur ++ (if decide (cur = []) then [] else str " ") ++ p)
                  (seen ++ w ++ p)) as (chunks' & cur' & -> & Hn).
      * done.
      * rewrite (app_assoc (concat chunks)). apply wsNorm_app; [exact Hseen|].
        destruct (decide (cur = [])) as [->|Hcur].
        -- apply (wsNorm_piece w [] p); auto. apply sep_mem; auto.
        -- destruct Hne as [Hne|?]; [|done].
           apply (wsNorm_piece w [SPACE] p); auto. apply sep_mem; auto.
      * exists chunks', cur'. split; [done|].
        by rewrite <- !app_assoc in Hn.
Qed.

Lemma paragraphLoop_norm segs : ∀ chunks cur seen,
  goodSegs cur segs →
  wsNorm seen (concat chunks ++ cur) →
  ∃ chunks' cur',
    paragraphLoop M (map snd segs) chunks cur = Some (chunks', cur')
    ∧ wsNorm (seen ++ segText segs) (concat chunks' ++ cur').
Proof.
  induction segs as [|[w p] segs IH]; intros chunks cur seen Hgood Hseen.
  - exists chunks, cur. simpl. by rewrite app_nil_r.
  - assert (Htail : ∀ cur', goodSegs cur' segs)
      by (intros; eapply goodSegs_tail, Hgood).
    destruct Hgood as (Hw & Hne & _). simpl in Hw, Hne.
    rewrite segText_cons. cbn [map snd fst]. rewrite paragraphLoop_cons.
    destruct (length cur + length p + 2 >? M) eqn:Hover.
    + rewrite flush_rest. destruct (length p >? M) eqn:Hbig.
      * destruct (split_segs sentenceBreak p sentenceBreak_white)
          as (ssegs & -> & Htext & Hsgood).
        destruct (sentenceLoop_norm ssegs
                    (if length cur >? 0 then chunks ++ [cur] else chunks)
                    [] (seen ++ w)) as (chunks2 & sc & -> & Hn); [exact Hsgood| |].
        { rewrite concat_flush. apply wsNorm_app; [exact Hseen|].
          by apply wsNorm_drop. }
        cbn [mbind option_bind]. rewrite Htext in Hn.
        destruct (IH (if length sc >? 0 then chunks2 ++ [sc] else chunks2)
                    [] ((seen ++ w) ++ p)) as (chunks' & cur' & -> & Hn');
          [done| |].
        { by rewrite concat_flush, app_nil_r. }
        exists chunks', cur'. split; [done|].
        by rewrite <- !app_assoc in Hn'.
      * destruct (IH (if length cur >? 0 then chunks ++ [cur] else chunks)
                    p (seen ++ w ++ p)) as (chunks' & cur' & -> & Hn); [done| |].
        { rewrite concat_flush. apply wsNorm_app; [exact Hseen|].
          apply (wsNorm_piece w [] p); auto. apply sep_mem; auto. }
        exists chunks', cur'. split; [done|].
        by rewrite <- !app_assoc in Hn.
    + destruct (IH chunks
                  (cur ++ (if decide (cur = []) then [] else [LF; LF]) ++ p)
                  (seen ++ w ++ p)) as (chunks' & cur' & -> & Hn).
      * done.
      * rewrite (app_assoc (concat chunks)). apply wsNorm_app; [exact Hseen|].
        destruct (decide (cur = [])) as [->|Hcur].
        -- apply (wsNorm_piece w [] p); auto. apply sep_mem; auto.
        -- destruct Hne as [Hne|?]; [|done].
           apply (wsNorm_piece w [LF; LF] p); auto.
           apply sep_mem; auto.
      * exists chunks', cur'. split; [done|].
        by rewrite <- !app_assoc in Hn.
Qed.

Lemma createChunks_norm text :
  ∃ chunks, createChunks text M = Some chunks ∧ wsNorm text (concat chunks).
Proof.
  unfold createChunks. destruct (length text <=? M).
  - exists [text]. simpl. rewrite app_nil_r. auto using wsNorm_refl.
  - destruct (split_segs paragraphBreak text paragraphBreak_white)
      as (segs & -> & Htext & Hgood).
    destruct (paragraphLoop_norm segs [] [] []) as (chunks & cur & -> & Hn);
      [done|constructor|].
    simpl. eexists. split; [done|].
    rewrite concat_flush. simpl in Hn. by rewrite Htext in Hn.
Qed.

End ChunkerLoops.

Section ChunkerText.

Variable M : nat.
Hypothesis M_pos : 0 < M.

Lemma split_cut m s : whiteMatcher m → ∃ segs, cutBy m s segs.
Proof.
  intros Hm. destruct s as [|c r].
  - exists [([], [])]. unfold cutBy. simpl.
    destruct (m None []) as [n|] eqn:Hn.
    { apply Hm in Hn. simpl in Hn. lia. }
    repeat split; auto.
  - destruct (splitLoop_segs m Hm (c :: r) None 0 [])
      as (p & segs & Heq & Hdrop & Hsegs); [auto|simpl; lia|constructor|].
    exists (([], p) :: segs). simpl in Hdrop. unfold cutBy.
    change (split m (c :: r)) with (splitLoop m None 0 [] (c :: r)).
    rewrite Heq. split; [done|]. split; [|by split].
    unfold segText. simpl. fold (segText segs). by rewrite Hdrop.
Qed.

Lemma cutBy_good m s segs : cutBy m s segs → goodSegs [] segs.
Proof.
  intros (_ & _ & Hshape). destruct segs as [|[w p] rest]; [done|].
  destruct Hshape as [Hw Hrest]. simpl in Hw. subst w.
  split; [constructor|]. split; [by right|done].
Qed.

Lemma sentenceLoop_text segs : ∀ chunks sc,
  goodSegs sc segs →
  ∃ chunks' sc' o,
    sentenceLoop M (map snd segs) chunks sc = Some (chunks', sc')
    ∧ concat chunks' ++ sc' = (concat chunks ++ sc) ++ o
    ∧ rejoined [SPACE] segs o.
Proof.
  induction segs as [|[w p] segs IH]; intros chunks sc Hgood.
  - exists chunks, sc, []. simpl. rewrite app_nil_r. repeat split. constructor.
  - assert (Htail : ∀ sc', goodSegs sc' segs)
      by (intros; eapply goodSegs_tail, Hgood).
    destruct Hgood as (Hw & Hne & _). simpl in Hw, Hne.
    cbn [map snd fst]. rewrite sentenceLoop_cons.
    destruct (length sc + length p >? M) eqn:Hover.
    + rewrite flush_rest. destruct (length p >? M) eqn:Hbig.
      * destruct (sliceLoop_spec M p M_pos (length p) 0
                    (if length sc >? 0 then chunks ++ [sc] else chunks))
          as (sl & -> & Hcat & _); [nia|]. cbn [mbind option_bind].
        destruct (IH ((if length sc >? 0 then chunks ++ [sc] else chunks) ++ sl)
                    []) as (chunks' & sc' & o & -> & Heq & Hre); [done|].
        exists chunks', sc', ([] ++ p ++ o). split; [done|]. split.
        -- rewrite Heq, concat_app, concat_flush, Hcat, app_nil_r. simpl.
           by rewrite <- !app_assoc.
        -- constructor; auto.
      * destruct (IH (if length sc >? 0 then chunks ++ [sc] else chunks) p)
          as (chunks' & sc' & o & -> & Heq & Hre); [done|].
        exists chunks', sc', ([] ++ p ++ o). split; [done|]. split.
        -- rewrite Heq, concat_flush. simpl. by rewrite <- !app_assoc.
        -- constructor; auto.
    + destruct (IH chunks
                  (sc ++ (if decide (sc = []) then [] else str " ") ++ p))
        as (chunks' & sc' & o & -> & Heq & Hre); [done|].
      exists chunks', sc',
        ((if decide (sc = []) then [] else [SPACE]) ++ p ++ o).
      split; [done|]. split.
      * rewrite Heq. destruct (decide (sc = [])); by rewrite <- !app_assoc.
      * constructor; [|done]. destruct (decide (sc = [])); [by left|right].
        destruct Hne; done.
Qed.

Lemma paragraphLoop_text segs : ∀ chunks cur,
  goodSegs cur segs →
  ∃ chunks' cur' o,
    paragraphLoop M (map snd segs) chunks cur = Some (chunks', cur')
    ∧ concat chunks' ++ cur' = (concat chunks ++ cur) ++ o
    ∧ chunkedText M segs o.
Proof.
  induction segs as [|[w p] segs IH]; intros chunks cur Hgood.
  - exists chunks, cur, []. simpl. rewrite app_nil_r. repeat split. constructor.
  - assert (Htail : ∀ cur', goodSegs cur' segs)
      by (intros; eapply goodSegs_tail, Hgood).
    destruct Hgood as (Hw & Hne & _). simpl in Hw, Hne.
    cbn [map snd fst]. rewrite paragraphLoop_cons.
    destruct (length cur + length p + 2 >? M) eqn:Hover.
    + rewrite flush_rest. destruct (length p >? M) eqn:Hbig.
      * apply Nat.ltb_lt in Hbig.
        destruct (split_cut sentenceBreak p sentenceBreak_white)
          as (sentences & Hcut).
        pose proof Hcut as (Hsplit & _ & _). rewrite <- Hsplit.
        destruct (sentenceLoop_text sentences
                    (if length cur >? 0 then chunks ++ [cur] else chunks) [])
          as (chunks2 & sc & p' & -> & Heq2 & Hre);
          [by eapply cutBy_good|].
        cbn [mbind option_bind].
        destruct (IH (if length sc >? 0 then chunks2 ++ [sc] else chunks2) [])
          as (chunks' & cur' & o & -> & Heq & Hct); [done|].
        exists chunks', cur', (p' ++ o). split; [done|]. split.
        -- rewrite Heq, concat_flush, app_nil_r, Heq2, concat_flush, app_nil_r.
           by rewrite <- !app_assoc.
        -- by eapply chunked_big.
      * apply Nat.ltb_ge in Hbig.
        destruct (IH (if length cur >? 0 then chunks ++ [cur] else chunks) p)
          as (chunks' & cur' & o & -> & Heq & Hct); [done|].
        exists chunks', cur', ([] ++ p ++ o). split; [done|]. split.
        -- rewrite Heq, concat_flush. simpl. by rewrite <- !app_assoc.
        -- apply chunked_small; auto.
    + apply Nat.ltb_ge in Hover.
      destruct (IH chunks
                  (cur ++ (if decide (cur = []) then [] else [LF; LF]) ++ p))
        as (chunks' & cur' & o & -> & Heq & Hct); [done|].
      exists chunks', cur',
        ((if decide (cur = []) then [] else [LF; LF]) ++ p ++ o).
      split; [done|]. split.
      * rewrite Heq. destruct (decide (cur = [])); by rewrite <- !app_assoc.
      * apply chunked_small; [lia| |done].
        destruct (decide (cur = [])); [by left|right]. destruct Hne; done.
Qed.

Lemma createChunks_text text :
  M < length text →
  ∃ chunks paragraphs,
    createChunks text M = Some chunks
    ∧ cutBy paragraphBreak text paragraphs
    ∧ chunkedText M paragraphs (concat chunks).
Proof.
  intros Hlong.
  destruct (split_cut paragraphBreak text paragraphBreak_white)
    as (paragraphs & Hcut).
  destruct (paragraphLoop_text paragraphs [] [])
    as (chunks & cur & o & Hloop & Heq & Hct); [by eapply cutBy_good|].
  exists (if length cur >? 0 then chunks ++ [cur] else chunks), paragraphs.
  split; [|split; [done|]].
  - unfold createChunks. rewrite (proj2 (Nat.leb_gt _ _) Hlong).
    destruct Hcut as (<- & _ & _). by rewrite Hloop.
  - rewrite concat_flush, Heq. done.
Qed.

End ChunkerText.

(** C3. For a positive [maxChunkSize], [createChunks] returns.  A text no
    longer than [maxChunkSize], the empty text included, comes back as the
    one chunk.  For a longer text the chunks put end to end are the text
    changed at its split points only: every paragraph of at most
    [maxChunkSize] code units, and every sentence of a longer paragraph,
    is there as it is, white space inside it included; each paragraph
    break is dropped or replaced by a blank line, each sentence break of a
    longer paragraph is dropped or replaced by one space, and where a
    sentence is sliced nothing changes.  So no code unit that is not white
    space is lost, added, duplicated or moved. *)
Theorem createChunks_lossless (T : list N) (M : nat) :
  0 < M →
  (∃ chunks, createChunks T M = Some chunks
     ∧ (length T ≤ M → chunks = [T])
     ∧ (M < length T →
        ∃ paragraphs, cutBy paragraphBreak T paragraphs
                      ∧ chunkedText M paragraphs (concat chunks))
     ∧ wsNorm T (concat chunks)
     ∧ nonWhite (concat chunks) = nonWhite T)
  ∧ createChunks [] M = Some [[]].
Proof.
  intros HM. split; [|done].
  destruct (createChunks_norm M HM T) as (chunks & Heq & Hn).
  exists chunks. split; [done|]. split; [|split]; [| |split].
  - intros Hlen. unfold createChunks in Heq.
    apply Nat.leb_le in Hlen. rewrite Hlen in Heq. congruence.
  - intros Hlong.
    destruct (createChunks_text M HM T Hlong)
      as (chunks' & paragraphs & Heq' & Hcut & Hct).
    assert (chunks' = chunks) as -> by congruence. eauto.
  - done.
  - by apply wsNorm_nonWhite.
Qed.

Lemma createChunks_lossless_witness :
  0 < 8 ∧
  ((∃ chunks, createChunks (str "One two. Three!

Four") 8 = Some chunks
     ∧ (length (str "One two. Three!

Four") ≤ 8 → chunks = [str "One two. Three!

Four"])
     ∧ (8 < length (str "One two. Three!

Four") →
        ∃ paragraphs, cutBy paragraphBreak (str "One two. Three!

Four") paragraphs
                      ∧ chunkedText 8 paragraphs (concat chunks))
     ∧ wsNorm (str "One two. Three!

Four") (concat chunks)
     ∧ nonWhite (concat chunks) = nonWhite (str "One two. Three!

Four"))
  ∧ createChunks [] 8 = Some [[]]).
Proof.
  split; [lia|]. apply (createChunks_lossless _ 8). lia.
Defined.

(** What [chunkedText] leaves open is the white space at the split points
    only.  A text with no paragraph break and no sentence break has no
    split point, so the one text [chunkedText] allows for it is the text
    itself, the spaces inside it included. *)
Lemma chunkedText_no_split_point (paragraphs : list (list N * list N))
    (o : list N) :
  cutBy paragraphBreak (str "a b c d e f") paragraphs →
  chunkedText 4 paragraphs o →
  o = str "a b c d e f"
  ∧ createChunks (str "a b c d e f") 4
      = Some [str "a b "; str "c d "; str "e f"].
Proof.
  remember (str "a b c d e f") as T eqn:HT.
  assert (Hone : split paragraphBreak T = [T])
    by (subst T; vm_compute; reflexivity).
  assert (Hone' : split sentenceBreak T = [T])
    by (subst T; vm_compute; reflexivity).
  assert (Hlong : 4 < length T) by (subst T; vm_compute; lia).
  intros (Hsplit & _ & Hshape) Hct.
  split; [|subst T; vm_compute; reflexivity]. clear HT.
  rewrite Hone in Hsplit.
  destruct paragraphs as [|[w p] [|? ?]]; try done.
  destruct Hshape as [Hw _]. cbn [map snd fst] in Hw, Hsplit. subst w.
  assert (p = T) as -> by congruence. clear Hsplit.
  inversion Hct
    as [|w p segs o' w' Hlen _ _|w p segs o' sentences p' _ Hcut Hre Hrest];
    subst; [lia|].
  inversion Hrest; subst. rewrite app_nil_r.
  destruct Hcut as (Hsplit & _ & Hshape). rewrite Hone' in Hsplit.
  destruct sentences as [|[w p] [|? ?]]; try done.
  destruct Hshape as [Hw _]. cbn [map snd fst] in Hw, Hsplit. subst w.
  assert (p = T) as -> by congruence. clear Hsplit.
  inversion Hre as [|w p segs o' w' Hsep Hnil]; subst.
  inversion Hnil; subst. rewrite app_nil_r.
  destruct Hsep as [->|[? _]]; done.
Qed.

(** C1. The sentence level joins with a space it did not count:
    [sentenceChunk.length + sentence.length > maxChunkSize] leaves the
    separator out, where the paragraph level adds 2 for its own.  With
    [maxChunkSize = 5] the text ["ab. cd"] comes back as one chunk of six
    code units. *)
Theorem createChunks_sentence_join_overflow :
  createChunks (str "ab. cd") 5 = Some [str "ab. cd"]
  ∧ length (str "ab. cd") = 6.
Proof. split; reflexivity. Qed.

(** ** robots.txt *)

Section RobotsFacts.

Lemma startsWith_cons c s a p :
  startsWith (c :: s) (a :: p) = (a =? c)%N && startsWith s p.
Proof. reflexivity. Qed.

Lemma startsWith_prefix s p : startsWith s p = true ↔ p `prefix_of` s.
Proof.
  revert s. induction p as [|a p IH]; intros s; simpl.
  - split; [intros _; apply prefix_nil|done].
  - destruct s as [|b s].
    + split; [done|]. intros [k Hk]. done.
    + rewrite andb_true_iff, N.eqb_eq, IH. split.
      * intros [-> Hp]. by apply prefix_cons.
      * intros [k Hk]. injection Hk as -> ->. split; [done|]. by exists k.
Qed.

Lemma anyPrefix_spec path rules :
  anyPrefix path rules = true ↔ ∃ r, r ∈ rules ∧ r `prefix_of` path.
Proof.
  unfold anyPrefix. rewrite existsb_exists. split.
  - intros (r & Hin & Hr). exists r.
    by rewrite list_elem_of_In, <- startsWith_prefix.
  - intros (r & Hin & Hr). exists r.
    by rewrite <- list_elem_of_In, startsWith_prefix.
Qed.






Lemma parseLines_cons st line rest :
  parseLines st (line :: rest) = (st' ← parseLine st line; parseLines st' rest).
Proof. reflexivity. Qed.

Lemma parseLines_app l1 l2 st st' :
  parseLines st (l1 ++ l2) = Some st' ↔
  ∃ st1, parseLines st l1 = Some st1 ∧ parseLines st1 l2 = Some st'.
Proof.
  revert st. induction l1 as [|line l1 IH]; intros st; simpl.
  - split; [eauto|]. by intros (st1 & [= <-] & ?).
  - destruct (parseLine st line) as [st1|]; simpl; [apply IH|].
    split; [done|]. by intros (? & ? & ?).
Qed.

(** A line the parser takes for a [Disallow] directive. *)
Lemma disallow_line rules ua line path :
  startsWith (toLowerCase (trim line)) (str "disallow:") = true →
  afterColon (trim line) = Some path →
  parseLine (rules, ua) line =
    (disallow' ← push (ensure (disallow rules) ua) ua path;
     Some ({| allow := allow rules; disallow := disallow' |}, ua)).
Proof.
  intros Hkey Hpath. unfold parseLine. rewrite Hkey, Hpath.
  destruct (trim line) as [|c r]; [done|].
  change (toLowerCase (c :: r)) with (lowerUnit c :: toLowerCase r) in *.
  change (str "disallow:") with (100%N :: str "isallow:") in Hkey.
  rewrite startsWith_cons in Hkey. apply andb_true_iff in Hkey as [Hc _].
  apply N.eqb_eq in Hc.
  assert (Hhash : startsWith (c :: r) (str "#") = false).
  { change (str "#") with [35%N]. rewrite startsWith_cons.
    destruct (35 =? c)%N eqn:H35; [|done].
    apply N.eqb_eq in H35 as <-. done. }
  rewrite Hhash.
  replace (bool_decide (c :: r = [])) with false
    by (symmetry; by apply bool_decide_eq_false).
  assert (Hua : startsWith (lowerUnit c :: toLowerCase r) (str "user-agent:")
                = false).
  { change (str "user-agent:") with (117%N :: str "ser-agent:").
    rewrite startsWith_cons, <- Hc. done. }
  assert (Hal : startsWith (lowerUnit c :: toLowerCase r) (str "allow:")
                = false).
  { change (str "allow:") with (97%N :: str "llow:").
    rewrite startsWith_cons, <- Hc. done. }
  rewrite Hua, Hal. done.
Qed.

End RobotsFacts.

(** C4. [isDisallowed] answers [true] exactly for a URL that parses and
    whose path starts with some wildcard [Disallow] prefix and with no
    wildcard [Allow] prefix; a URL that does not parse is let through, and
    so is every URL when the rules are the empty object.  With
    [Disallow: /private] under [User-agent: *], a path [/private/page] is
    turned away and [/public/page] is let through. *)
Theorem isDisallowed_allow_overrides (parseURL : list N → option URL)
    (url : list N) (rules : RobotsRules) :
  (isDisallowed parseURL url (Some rules) = true ↔
     ∃ u, parseURL url = Some u
       ∧ (∃ r, r ∈ wildcardRules (disallow rules) ∧ r `prefix_of` pathname u)
       ∧ ¬ (∃ r, r ∈ wildcardRules (allow rules) ∧ r `prefix_of` pathname u))
  ∧ (parseURL url = None → isDisallowed parseURL url (Some rules) = false)
  ∧ isDisallowed parseURL url None = false
  ∧ (∀ u, parseURL url = Some u →
       (pathname u = str "/private/page" →
          isDisallowed parseURL url
            (parseRobotsTxt (str "User-agent: *
Disallow: /private")) = true)
       ∧ (pathname u = str "/public/page" →
          isDisallowed parseURL url
            (parseRobotsTxt (str "User-agent: *
Disallow: /private")) = false)).
Proof.
  repeat split.
  - unfold isDisallowed. destruct (parseURL url) as [u|]; [|done].
    intros H. exists u. split; [done|].
    rewrite <- !anyPrefix_spec.
    destruct (anyPrefix (pathname u) (wildcardRules (allow rules))); [done|].
    destruct (anyPrefix (pathname u) (wildcardRules (disallow rules))); done.
  - intros (u & Hu & Hd & Ha). unfold isDisallowed. rewrite Hu.
    rewrite <- anyPrefix_spec in Hd, Ha. rewrite Hd.
    by destruct (anyPrefix (pathname u) (wildcardRules (allow rules))).
  - intros Hu. unfold isDisallowed. by rewrite Hu.
  - unfold isDisallowed. by destruct (parseURL url).
  - intros Hp. unfold isDisallowed. rewrite H, Hp. reflexivity.
  - intros Hp. unfold isDisallowed. rewrite H, Hp. reflexivity.
Qed.

Lemma isDisallowed_allow_overrides_witness :
  isDisallowed simpleURL (str "https://site.test/private/page")
    (parseRobotsTxt (str "User-agent: *
Disallow: /private")) = true
  ∧ isDisallowed simpleURL (str "https://site.test/public/page")
    (parseRobotsTxt (str "User-agent: *
Disallow: /private")) = false.
Proof.
  split.
  - eapply (isDisallowed_allow_overrides simpleURL
              (str "https://site.test/private/page")
              {| allow := ∅; disallow := ∅ |}); reflexivity.
  - eapply (isDisallowed_allow_overrides simpleURL
              (str "https://site.test/public/page")
              {| allow := ∅; disallow := ∅ |}); reflexivity.
Defined.



(** ** The crawl loop *)

Section CrawlFacts.

Variable web : Web.
Variable options : Options.
Variable baseUrl : URL.
Variable robotsRules : option RobotsRules.

Local Abbreviation body := (body web options baseUrl robotsRules).
Local Abbreviation loop := (loop web options baseUrl robotsRules).
Local Abbreviation Turn := (Turn web options baseUrl robotsRules).
Local Abbreviation allowed := (allowed web options robotsRules).
Local Abbreviation inScope := (inScope web baseUrl).
Local Abbreviation loads := (loads web options).

Lemma body_turn st u d rest : Turn st u d rest (body st u d rest).
Proof.
  unfold body. cbn [visited queue results attempts].
  destruct (decide (u ∈ visited st)) as [Hseen|Hnew]; [by constructor|].
  destruct (respectRobotsTxt options
            && isDisallowed (parseURL web) u robotsRules) eqn:Hrobots.
  { apply turn_robots; [done|]. unfold CrawlSpec.allowed. by rewrite Hrobots. }
  destruct (parseURL web u) as [uo|] eqn:Hparse; [|by constructor].
  destruct (decide (hostname uo ≠ hostname baseUrl)) as [Hhost|Hhost].
  { by eapply turn_foreign. }
  assert (inScope u).
  { exists uo. split; [done|]. by destruct (decide (hostname uo = hostname baseUrl)). }
  destruct (render web u (selector options) (waitTime options)) as [page|]
    eqn:Hrender; [|by constructor].
  replace (if d <? depth options
           then match anchors page with
                | Some evaluated =>
                    rest ++ enqueue ({[u]} ∪ visited st)
                              (extractLinks evaluated) (d + 1)
                | None => rest
                end
           else rest)
    with (rest ++ (if d <? depth options
                   then enqueue ({[u]} ∪ visited st) (linksOf page) (d + 1)
                   else [])).
  { by apply (turn_fetched _ _ _ _ _ _ _ _ page). }
  unfold linksOf. destruct (d <? depth options); [|by rewrite app_nil_r].
  destruct (anchors page); [done|]. by rewrite app_nil_r.
Qed.

(** What holds at the start and is kept by every turn holds when the loop
    ends, however it ends. *)
Lemma loop_invariant (P : State → Prop) :
  (∀ st u d rest step,
     P st → queue st = (u, d) :: rest →
     length (results st) < maxPages options →
     Turn st u d rest step → P (stateOf step)) →
  ∀ fuel st step, P st → loop fuel st = Some step → P (stateOf step).
Proof.
  intros Hkeep. induction fuel as [|fuel IH]; intros st step HP; simpl.
  - destruct (queue st) as [|[u d] rest]; [by intros [= <-]|].
    destruct (_ <? _); [done|]. by intros [= <-].
  - destruct (queue st) as [|[u d] rest] eqn:Hq; [by intros [= <-]|].
    destruct (_ <? _) eqn:Hlt; [|by intros [= <-]].
    apply Nat.ltb_lt in Hlt.
    pose proof (Hkeep st u d rest _ HP Hq Hlt (body_turn st u d rest)) as Hnext.
    destruct (body st u d rest) as [st'|st'].
    + intros Hloop. by eapply IH.
    + by intros [= <-].
Qed.

(** The loop leaves only when the queue is empty or the ceiling is met. *)
Lemma loop_exit fuel st st' :
  loop fuel st = Some (Continue st') →
  queue st' = [] ∨ maxPages options ≤ length (results st').
Proof.
  revert st. induction fuel as [|fuel IH]; intros st; simpl.
  - destruct (queue st) as [|[u d] rest] eqn:Hq; [intros [= <-]; auto|].
    destruct (_ <? _) eqn:Hlt; [done|]. intros [= <-].
    apply Nat.ltb_ge in Hlt. auto.
  - destruct (queue st) as [|[u d] rest] eqn:Hq; [intros [= <-]; auto|].
    destruct (_ <? _) eqn:Hlt.
    + destruct (body st u d rest) as [st1|st1]; [apply IH|done].
    + intros [= <-]. apply Nat.ltb_ge in Hlt. auto.
Qed.

Lemma turn_progress st u d rest st' :
  Turn st u d rest (Continue st') →
  (results st' = results st ∧ queue st' = rest)
  ∨ length (results st') = S (length (results st)).
Proof.
  inversion 1; subst; simpl; auto.
  right. rewrite length_app. simpl. lia.
Qed.

(** The loop ends: each turn either adds a page record, of which there can
    be [maxPages] at most, or shortens the queue. *)
Lemma loop_terminates st : ∃ fuel step, loop fuel st = Some step.
Proof.
  remember (maxPages options - length (results st)) as n eqn:Hn.
  assert (Hle : maxPages options - length (results st) ≤ n) by lia. clear Hn.
  revert st Hle. induction n as [|n IHn]; intros st Hle.
  - exists 0. simpl. destruct (queue st) as [|[u d] rest]; [eauto|].
    destruct (_ <? _) eqn:Hlt; [|eauto]. apply Nat.ltb_lt in Hlt. lia.
  - remember (length (queue st)) as m eqn:Hm.
    assert (Hq : length (queue st) ≤ m) by lia. clear Hm.
    revert st Hle Hq. induction m as [|m IHm]; intros st Hle Hq.
    + exists 0. simpl. destruct (queue st); [eauto|simpl in Hq; lia].
    + destruct (queue st) as [|[u d] rest] eqn:Hqueue.
      { exists 0. simpl. rewrite Hqueue. eauto. }
      destruct (length (results st) <? maxPages options) eqn:Hlt.
      2:{ exists 0. simpl. rewrite Hqueue, Hlt. eauto. }
      apply Nat.ltb_lt in Hlt.
      pose proof (body_turn st u d rest) as Hturn.
      destruct (body st u d rest) as [st'|st'] eqn:Hbody.
      * destruct (turn_progress _ _ _ _ _ Hturn) as [[Hres Hrest]|Hgrow].
        -- destruct (IHm st') as (fuel & step & Hloop).
           { rewrite Hres. lia. }
           { rewrite Hrest. simpl in Hq. lia. }
           exists (S fuel), step. simpl. by rewrite Hqueue, Hbody,
             (proj2 (Nat.ltb_lt _ _) Hlt).
        -- destruct (IHn st') as (fuel & step & Hloop); [lia|].
           exists (S fuel), step. simpl. by rewrite Hqueue, Hbody,
             (proj2 (Nat.ltb_lt _ _) Hlt).
      * exists 1, (Throw st'). simpl. by rewrite Hqueue, Hbody,
          (proj2 (Nat.ltb_lt _ _) Hlt).
Qed.

(** More fuel does not change how the loop ends. *)
Lemma loop_fuel fuel fuel' st step :
  loop fuel st = Some step → fuel ≤ fuel' → loop fuel' st = Some step.
Proof.
  revert fuel' st. induction fuel as [|fuel IH]; intros fuel' st.
  - simpl. destruct (queue st) as [|[u d] rest] eqn:Hq.
    + intros [= <-] _. destruct fuel'; simpl; by rewrite Hq.
    + destruct (_ <? _) eqn:Hlt; [done|]. intros [= <-] _.
      destruct fuel'; simpl; by rewrite Hq, Hlt.
  - intros Hloop Hle. destruct fuel' as [|fuel']; [lia|].
    simpl in *. destruct (queue st) as [|[u d] rest]; [done|].
    destruct (_ <? _); [|done].
    destruct (body st u d rest); [|done]. apply IH; [done|lia].
Qed.

End CrawlFacts.

Section CrawlInvariants.

Variable web : Web.
Variable options : Options.
Variable baseUrl : URL.
Variable robotsRules : option RobotsRules.
Variable startUrl : list N.

Local Abbreviation Turn := (Turn web options baseUrl robotsRules).

Lemma turn_sameHost st u d rest step :
  sameHost web baseUrl st → Turn st u d rest step →
  sameHost web baseUrl (stateOf step).
Proof.
  unfold sameHost. intros Hinv Hturn.
  inversion Hturn; subst; simpl; try done.
  all: apply Forall_app; split; [done|]; by repeat constructor.
Qed.

Lemma turn_onceEach st u d rest step :
  onceEach st → Turn st u d rest step → onceEach (stateOf step).
Proof.
  unfold onceEach. intros [Hnd Hvis] Hturn.
  inversion Hturn; subst; simpl; try done.
  all: rewrite fmap_app; simpl; split.
  all: try (apply NoDup_app; split; [done|]; split;
            [|apply NoDup_singleton];
            intros x Hx ->%list_elem_of_singleton; by apply Hvis in Hx).
  all: intros x; rewrite elem_of_union, elem_of_singleton, elem_of_app,
         list_elem_of_singleton, Hvis; tauto.
Qed.

Lemma turn_recorded st u d rest step :
  recorded web options st → Turn st u d rest step →
  recorded web options (stateOf step).
Proof.
  unfold recorded. intros Hinv Hturn.
  inversion Hturn as [| | | | ? ? ? Hnone|page ? ? ? Hload]; subst; simpl;
    try done.
  - rewrite omap_app. simpl. rewrite Hnone. simpl. by rewrite app_nil_r.
  - rewrite omap_app. simpl. unfold loads in Hload. rewrite Hload. simpl.
    by rewrite Hinv.
Qed.

Lemma enqueue_depth vis links d e : e ∈ enqueue vis links d → e.2 = d.
Proof.
  unfold enqueue. intros (link & -> & _)%list_elem_of_fmap. done.
Qed.

Lemma enqueue_link vis links d e :
  e ∈ enqueue vis links d → e.1 ∈ links ∧ e.1 ∉ vis.
Proof.
  unfold enqueue. intros (link & -> & Hin)%list_elem_of_fmap.
  by apply list_elem_of_filter in Hin as [? ?].
Qed.

Lemma turn_shallow st u d rest step :
  queue st = (u, d) :: rest →
  shallow options st → Turn st u d rest step → shallow options (stateOf step).
Proof.
  unfold shallow. intros Hq Hinv Hturn. rewrite Hq in Hinv.
  apply Forall_app in Hinv as [Hqueue Hatt].
  apply Forall_cons in Hqueue as [Hd Hrest]. simpl in Hd.
  inversion Hturn; subst; simpl.
  1-4: by apply Forall_app.
  - apply Forall_app. split; [done|].
    apply Forall_app. split; [done|]. by repeat constructor.
  - rewrite <- !app_assoc. apply Forall_app. split; [done|].
    apply Forall_app. split.
    + destruct (d <? depth options) eqn:Hlt; [|constructor].
      apply Nat.ltb_lt in Hlt. apply Forall_forall.
      intros e ->%enqueue_depth. lia.
    + apply Forall_app. split; [done|]. by repeat constructor.
Qed.

Lemma turn_linked st u d rest step :
  queue st = (u, d) :: rest →
  linked web options startUrl st → Turn st u d rest step →
  linked web options startUrl (stateOf step).
Proof.
  unfold linked. intros Hq Hinv Hturn. rewrite Hq in Hinv.
  apply Forall_app in Hinv as [Hqueue Hatt].
  apply Forall_cons in Hqueue as [Hd Hrest].
  inversion Hturn as [| | | | |page ? ? ? Hload]; subst; simpl.
  1-4: by apply Forall_app.
  - rewrite app_assoc. apply Forall_app. split.
    + eapply Forall_impl; [by apply Forall_app|].
      intros e [->|(p & k & page & ? & ? & ?)]; [by left|right].
      exists p, k, page. rewrite elem_of_app. tauto.
    + constructor; [|constructor].
      destruct Hd as [->|(p & k & page & ? & ? & ?)]; [by left|right].
      exists p, k, page. rewrite elem_of_app. tauto.
  - assert (Hold : ∀ e,
      (e = (startUrl, 0)
       ∨ ∃ p k page0, e.2 = S k ∧ (p, k) ∈ attempts st ∧ k < depth options
           ∧ loads web options p page0 ∧ e.1 ∈ linksOf page0) →
      e = (startUrl, 0)
      ∨ ∃ p k page0, e.2 = S k ∧ (p, k) ∈ attempts st ++ [(u, d)]
          ∧ k < depth options ∧ loads web options p page0
          ∧ e.1 ∈ linksOf page0).
    { intros e [->|(p & k & page0 & ? & ? & ?)]; [by left|right].
      exists p, k, page0. rewrite elem_of_app. tauto. }
    rewrite <- !app_assoc. apply Forall_app. split.
    { eapply Forall_impl; [exact Hrest|]. exact Hold. }
    apply Forall_app. split.
    + destruct (d <? depth options) eqn:Hlt; [|constructor].
      apply Nat.ltb_lt in Hlt. apply Forall_forall. intros e He.
      right. exists u, d, page.
      pose proof (enqueue_depth _ _ _ _ He).
      pose proof (enqueue_link _ _ _ _ He) as [? _].
      rewrite elem_of_app, list_elem_of_singleton.
      repeat split; auto; lia.
    + apply Forall_app. split.
      { eapply Forall_impl; [exact Hatt|]. exact Hold. }
      constructor; [|constructor]. by apply Hold.
Qed.

Lemma turn_bounded st u d rest step :
  length (results st) < maxPages options →
  Turn st u d rest step → bounded options (stateOf step).
Proof.
  unfold bounded. intros Hlt Hturn.
  inversion Hturn; subst; simpl; try lia.
  rewrite length_app. simpl. lia.
Qed.

End CrawlInvariants.

Section CrawlBreadthFirst.

Variable web : Web.
Variable options : Options.
Variable baseUrl : URL.
Variable robotsRules : option RobotsRules.
Variable startUrl : list N.

Local Abbreviation Turn := (Turn web options baseUrl robotsRules).
Local Abbreviation allowed := (allowed web options robotsRules).
Local Abbreviation inScope := (inScope web baseUrl).
Local Abbreviation loads := (loads web options).
Local Abbreviation covered := (covered web options baseUrl robotsRules).
Local Abbreviation closed := (closed web options baseUrl robotsRules startUrl).
Local Abbreviation discoverable :=
  (discoverable web options baseUrl robotsRules startUrl).

(** With the head [(u, d)] taken off, the queue is entries of depth [d]
    followed by entries of depth [d + 1], and no attempt was deeper than
    [d]. *)
Lemma layered_pop st u d rest :
  queue st = (u, d) :: rest → layered st →
  ∃ qa qb, rest = qa ++ qb
    ∧ Forall (λ e, e.2 = d) qa ∧ Forall (λ e, e.2 = S d) qb
    ∧ Forall (λ e, e.2 ≤ d) (attempts st).
Proof.
  intros Hq (m & qa & qb & Hsplit & Ha & Hb & Hatt). rewrite Hq in Hsplit.
  destruct qa as [|e qa]; simpl in Hsplit.
  - destruct qb as [|e qb]; [done|]. injection Hsplit as <- ->.
    apply Forall_cons in Hb as [Hd Hb]. simpl in Hd. subst d.
    exists qb, []. rewrite app_nil_r. repeat split; auto.
    eapply Forall_impl; [exact Hatt|]. simpl. lia.
  - injection Hsplit as <- ->. apply Forall_cons in Ha as [Hd Ha].
    simpl in Hd. subst m. exists qa, qb. auto.
Qed.

Lemma turn_layered st u d rest step :
  queue st = (u, d) :: rest → layered st → Turn st u d rest step →
  layered (stateOf step).
Proof.
  intros Hq Hlay Hturn.
  destruct (layered_pop _ _ _ _ Hq Hlay) as (qa & qb & -> & Ha & Hb & Hatt).
  assert (Hatt' : Forall (λ e : list N * nat, e.2 ≤ d) (attempts st ++ [(u, d)])).
  { apply Forall_app. split; [done|]. by repeat constructor. }
  inversion Hturn; subst; simpl.
  1-4: by exists d, qa, qb.
  - by exists d, qa, qb.
  - exists d, qa,
      (qb ++ (if d <? depth options
              then enqueue ({[u]} ∪ visited st) (linksOf page) (d + 1)
              else [])).
    simpl. rewrite <- app_assoc. repeat split; auto.
    apply Forall_app. split; [done|].
    destruct (d <? depth options); [|constructor].
    apply Forall_forall. intros e ->%enqueue_depth. lia.
Qed.

Lemma attempted_visited st u :
  onceEach st → u ∈ visited st → ∃ j, (u, j) ∈ attempts st.
Proof.
  intros [_ Hvis] Hu. apply Hvis in Hu.
  apply list_elem_of_fmap in Hu as ([u' j] & -> & Hin). by exists j.
Qed.

Lemma turn_covered st u d rest step x k :
  queue st = (u, d) :: rest → layered st → onceEach st →
  Turn st u d rest step → covered st x k → covered (stateOf step) x k.
Proof.
  intros Hq Hlay Honce Hturn Hcov.
  destruct (layered_pop _ _ _ _ Hq Hlay) as (_ & _ & _ & _ & _ & Hatt).
  rewrite Forall_forall in Hatt.
  destruct Hcov as [(j & Hj & Hin)|[(j & Hj & Hin)|Hout]].
  - rewrite Hq in Hin. apply elem_of_cons in Hin as [[= -> ->]|Hin].
    + inversion Hturn as [Hseen| |? ? Hnone|uo ? ? Hsome Hhost| |];
        subst; simpl.
      * destruct (attempted_visited _ _ Honce Hseen) as (j & Hin).
        right; left. exists j. split; [|done]. apply Hatt in Hin. simpl in Hin. lia.
      * right; right. tauto.
      * right; right. intros [(uo & Hsome & _) _]. congruence.
      * right; right. intros [(uo' & Hsome' & Heq) _]. congruence.
      * right; left. exists d. simpl. rewrite elem_of_app, list_elem_of_singleton.
        auto.
      * right; left. exists d. simpl. rewrite elem_of_app, list_elem_of_singleton.
        auto.
    + left. exists j. split; [done|].
      inversion Hturn; subst; simpl; try done.
      apply elem_of_app. auto.
  - right; left. exists j. split; [done|].
    inversion Hturn; subst; simpl; try done; apply elem_of_app; auto.
  - right; right. done.
Qed.

Lemma turn_closed st u d rest step :
  queue st = (u, d) :: rest → layered st → onceEach st →
  closed st → Turn st u d rest step → closed (stateOf step).
Proof.
  intros Hq Hlay Honce [Hseed Hlinks] Hturn.
  pose proof (λ x k, turn_covered st u d rest step x k Hq Hlay Honce Hturn)
    as Hkeep.
  split; [by apply Hkeep|].
  intros p k page x Hp Hk Hload Hx.
  assert (Hold : (p, k) ∈ attempts st → covered (stateOf step) x (S k)).
  { intros Hin. apply Hkeep. by eapply Hlinks. }
  destruct (layered_pop _ _ _ _ Hq Hlay) as (_ & _ & _ & _ & _ & Hatt).
  rewrite Forall_forall in Hatt.
  inversion Hturn as [| | | |? ? ? Hnone|page' Hnew ? ? Hload'];
    subst; simpl in *; try by apply Hold.
  - apply elem_of_app in Hp as [Hp|[= -> ->]%list_elem_of_singleton];
      [by apply Hold|]. unfold CrawlSpec.loads in Hload. congruence.
  - apply elem_of_app in Hp as [Hp|[= -> ->]%list_elem_of_singleton];
      [by apply Hold|].
    unfold CrawlSpec.loads in Hload, Hload'.
    assert (page' = page) as -> by congruence.
    apply Nat.ltb_lt in Hk as Hk'. unfold CrawlSpec.covered. simpl.
    rewrite Hk'.
    destruct (decide (x ∈ ({[u]} ∪ visited st : gset (list N)))) as [Hin|Hout].
    + right; left. apply elem_of_union in Hin as [->%elem_of_singleton|Hin].
      * exists d. rewrite elem_of_app, list_elem_of_singleton. split; [lia|auto].
      * destruct (attempted_visited _ _ Honce Hin) as (j & Hj).
        exists j. apply Hatt in Hj as Hle. simpl in Hle.
        rewrite elem_of_app. split; [lia|auto].
    + left. exists (S d). split; [lia|].
      apply elem_of_app. right. unfold enqueue.
      apply list_elem_of_fmap. exists x. split; [f_equal; lia|].
      by apply list_elem_of_filter.
Qed.

(** Once the queue is empty, every address that can be discovered and
    passes scope and robots has been attempted. *)
Lemma closed_complete st u k :
  queue st = [] → closed st →
  discoverable u k → inScope u → allowed u →
  ∃ j, j ≤ k ∧ (u, j) ∈ attempts st.
Proof.
  intros Hq [Hseed Hlinks].
  assert (Hcov : ∀ x n, covered st x n → inScope x → allowed x →
                        ∃ j, j ≤ n ∧ (x, j) ∈ attempts st).
  { intros x n [(j & _ & Hin)|[?|Hno]] ? ?; [|done|tauto].
    rewrite Hq in Hin. by apply elem_of_nil in Hin. }
  induction 1 as [|p k page u Hp IH Hk Hscope Hallow Hload Hu].
  - by apply Hcov.
  - intros ? ?. destruct (IH Hscope Hallow) as (j & Hj & Hin).
    destruct (Hcov u (S j)) as (j' & Hj' & Hin'); [|done|done|].
    + eapply Hlinks; [done|lia|done|done].
    + exists j'. split; [lia|done].
Qed.

End CrawlBreadthFirst.

(** ** [crawlWebsite] as a whole *)

Section CrawlRuns.

Variable web : Web.
Variable options : Options.
Variable startUrl : list N.

Lemma crawlInv_initial baseUrl :
  crawlInv web options baseUrl startUrl (initial startUrl).
Proof.
  repeat split; try by constructor.
  - intros Hin. by apply elem_of_empty in Hin.
  - intros Hin. by apply elem_of_nil in Hin.
  - repeat constructor. simpl. lia.
  - repeat constructor.
  - unfold bounded. simpl. lia.
  - exists 0, [(startUrl, 0)], []. repeat split; by repeat constructor.
  - left. exists 0. split; [done|]. simpl. by apply list_elem_of_singleton.
  - simpl. intros p k page u Hin. by apply elem_of_nil in Hin.
Qed.

Lemma crawlInv_turn baseUrl st u d rest step :
  crawlInv web options baseUrl startUrl st →
  queue st = (u, d) :: rest →
  length (results st) < maxPages options →
  Turn web options baseUrl (loadRobots web options baseUrl) st u d rest step →
  crawlInv web options baseUrl startUrl (stateOf step).
Proof.
  intros (H1 & H2 & H3 & H4 & H5 & H6 & H7 & H8) Hq Hlt Hturn.
  split; [by eapply turn_sameHost|].
  split; [by eapply turn_onceEach|].
  split; [by eapply turn_recorded|].
  split; [by eapply turn_shallow|].
  split; [by eapply turn_linked|].
  split; [by eapply turn_bounded|].
  split; [by eapply turn_layered|].
  by eapply turn_closed.
Qed.

(** How [crawl] and the loop relate. *)
Lemma crawl_loop fuel run st :
  crawl web fuel startUrl options = Some run → lastState run = Some st →
  ∃ baseUrl step,
    parseURL web startUrl = Some baseUrl
    ∧ loop web options baseUrl (loadRobots web options baseUrl) fuel
        (initial startUrl) = Some step
    ∧ stateOf step = st
    ∧ (∀ st', run = Finished st' → step = Continue st').
Proof.
  unfold crawl. destruct (parseURL web startUrl) as [baseUrl|];
    [|by intros [= <-]].
  destruct (loop _ _ _ _ _ _) as [[st'|st']|] eqn:Hloop; [| |done].
  all: intros [= <-] [= <-]; exists baseUrl; eexists; repeat split; eauto.
  all: by intros ? [= <-].
Qed.

Lemma crawl_invariant fuel run st :
  crawl web fuel startUrl options = Some run → lastState run = Some st →
  ∃ baseUrl, parseURL web startUrl = Some baseUrl
    ∧ crawlInv web options baseUrl startUrl st.
Proof.
  intros Hrun Hst.
  destruct (crawl_loop _ _ _ Hrun Hst) as (baseUrl & step & Hbase & Hloop & <- & _).
  exists baseUrl. split; [done|].
  eapply (loop_invariant web options baseUrl _
            (crawlInv web options baseUrl startUrl)); [|apply crawlInv_initial|done].
  intros. by eapply crawlInv_turn.
Qed.

Lemma crawl_terminates : ∃ fuel run, crawl web fuel startUrl options = Some run.
Proof.
  unfold crawl. destruct (parseURL web startUrl) as [baseUrl|]; [|by exists 0; eauto].
  destruct (loop_terminates web options baseUrl
              (loadRobots web options baseUrl) (initial startUrl))
    as (fuel & step & Hloop).
  exists fuel. rewrite Hloop. destruct step; eauto.
Qed.

Lemma crawlWebsite_crawl fuel results :
  crawlWebsite web fuel startUrl options = Some (Returned results) →
  ∃ st, crawl web fuel startUrl options = Some (Finished st)
        ∧ results = Crawler.results st.
Proof.
  unfold crawlWebsite.
  destruct (crawl web fuel startUrl options) as [[st|?|?]|]; try done.
  intros [= <-]. eauto.
Qed.

End CrawlRuns.

Section CrawlResults.

Variable web : Web.
Variable options : Options.

Lemma recorded_elem st page :
  recorded web options st → page ∈ results st →
  ∃ d r, (url page, d) ∈ attempts st ∧ loads web options (url page) r
         ∧ page = record (url page) r.
Proof.
  unfold recorded. intros -> Hin.
  apply list_elem_of_omap in Hin as ([u d] & Hatt & Hrec). simpl in Hrec.
  destruct (render web u (selector options) (waitTime options)) as [r|] eqn:Hr;
    [|done].
  injection Hrec as <-. exists d, r. auto.
Qed.

Lemma recorded_loaded st u d r :
  recorded web options st → (u, d) ∈ attempts st → loads web options u r →
  record u r ∈ results st.
Proof.
  unfold recorded. intros -> Hatt Hload. apply list_elem_of_omap.
  exists (u, d). split; [done|]. simpl. unfold loads in Hload. by rewrite Hload.
Qed.

Lemma recorded_urls st :
  recorded web options st → url <$> results st `sublist_of` (attempts st).*1.
Proof.
  unfold recorded. intros ->. induction (attempts st) as [|[u d] l IH]; simpl.
  - constructor.
  - destruct (render web u (selector options) (waitTime options)); simpl.
    + by constructor.
    + by constructor.
Qed.

End CrawlResults.

(** C2 (as the code has it). Every address the browser is sent to, and so
    every page record, has the host name of the start address; the scheme
    and the port are not compared. *)
Theorem crawl_stays_on_hostname (web : Web) (fuel : nat) (startUrl : list N)
    (options : Options) (run : Run) (st : State) :
  crawl web fuel startUrl options = Some run →
  lastState run = Some st →
  ∃ baseUrl, parseURL web startUrl = Some baseUrl
    ∧ (∀ u d, (u, d) ∈ attempts st →
         ∃ uo, parseURL web u = Some uo ∧ hostname uo = hostname baseUrl)
    ∧ (∀ page, page ∈ results st →
         ∃ uo, parseURL web (url page) = Some uo
               ∧ hostname uo = hostname baseUrl).
Proof.
  intros Hrun Hst.
  destruct (crawl_invariant _ _ _ _ _ _ Hrun Hst)
    as (baseUrl & Hbase & Hhost & _ & Hrec & _).
  exists baseUrl. split; [done|].
  unfold sameHost in Hhost. rewrite Forall_forall in Hhost. split.
  - intros u d Hin. by apply Hhost in Hin.
  - intros page Hin.
    destruct (recorded_elem _ _ _ _ Hrec Hin) as (d & r & Hatt & _).
    by apply Hhost in Hatt.
Qed.

Lemma crawl_stays_on_hostname_witness :
  ∃ run st,
    crawl Sites.mixedSchemes 10 (str "https://a.test/") defaultOptions = Some run
    ∧ lastState run = Some st
    ∧ ∃ baseUrl, parseURL Sites.mixedSchemes (str "https://a.test/") = Some baseUrl
        ∧ (∀ u d, (u, d) ∈ attempts st →
             ∃ uo, parseURL Sites.mixedSchemes u = Some uo
                   ∧ hostname uo = hostname baseUrl)
        ∧ (∀ page, page ∈ results st →
             ∃ uo, parseURL Sites.mixedSchemes (url page) = Some uo
                   ∧ hostname uo = hostname baseUrl).
Proof.
  crawled Sites.mixedSchemes 10 (str "https://a.test/") defaultOptions.
  eapply (crawl_stays_on_hostname Sites.mixedSchemes 10 (str "https://a.test/")
            defaultOptions); [vm_compute; reflexivity|reflexivity].
Defined.

(** C2, as stated, fails: from [https://a.test/] the crawl loads
    [http://a.test/c], whose origin is another one. *)
Lemma crawl_fetches_other_origin :
  ∃ results page base uo,
    crawlWebsite Sites.mixedSchemes 10 (str "https://a.test/") defaultOptions
      = Some (Returned results)
    ∧ page ∈ results
    ∧ simpleURL (str "https://a.test/") = Some base
    ∧ simpleURL (url page) = Some uo
    ∧ origin uo ≠ origin base.
Proof.
  eexists _, (record (str "http://a.test/c")
                {| pageTitle := str "http://a.test/c"; innerText := [];
                   metaDescription := []; pageHtml := []; clock := [];
                   anchors := Some [] |}), _, _.
  split; [vm_compute; reflexivity|]. split.
  { do 2 apply list_elem_of_further. apply list_elem_of_here. }
  split; [reflexivity|]. split; [reflexivity|]. discriminate.
Qed.

(** C5. Nothing queued or attempted is deeper than [depth]; an entry of
    depth [k + 1] is a link of a page that was attempted at depth [k],
    below the limit, and loaded.  With [depth = 1] every address attempted
    is the start address or one of the links of its page. *)
Theorem crawl_depth_limit (web : Web) (fuel : nat) (startUrl : list N)
    (options : Options) (run : Run) (st : State) :
  crawl web fuel startUrl options = Some run →
  lastState run = Some st →
  (∀ u k, (u, k) ∈ queue st ++ attempts st → k ≤ depth options)
  ∧ (∀ u k, (u, S k) ∈ queue st ++ attempts st →
       ∃ p page, (p, k) ∈ attempts st ∧ k < depth options
                 ∧ loads web options p page ∧ u ∈ linksOf page)
  ∧ (depth options = 1 →
       ∀ u k, (u, k) ∈ attempts st →
         u = startUrl
         ∨ ∃ page, loads web options startUrl page ∧ u ∈ linksOf page).
Proof.
  intros Hrun Hst.
  destruct (crawl_invariant _ _ _ _ _ _ Hrun Hst)
    as (baseUrl & _ & _ & _ & _ & Hshallow & Hlinked & _).
  unfold shallow in Hshallow. unfold linked in Hlinked.
  rewrite Forall_forall in Hshallow, Hlinked.
  assert (Hparent : ∀ u k, (u, S k) ∈ queue st ++ attempts st →
            ∃ p page, (p, k) ∈ attempts st ∧ k < depth options
                      ∧ loads web options p page ∧ u ∈ linksOf page).
  { intros u k Hin.
    destruct (Hlinked _ Hin) as [[=]|(p & k' & page & [= <-] & ?)]. eauto. }
  assert (Hroot : ∀ u, (u, 0) ∈ queue st ++ attempts st → u = startUrl).
  { intros u Hin.
    destruct (Hlinked _ Hin) as [[= ->]|(? & ? & ? & [=] & _)]. done. }
  split; [|split; [done|]].
  - intros u k Hin. by apply Hshallow in Hin.
  - intros Hone u k Hin.
    assert (Hin' : (u, k) ∈ queue st ++ attempts st)
      by (apply elem_of_app; auto).
    destruct k as [|k]; [left; by apply Hroot|right].
    destruct (Hparent _ _ Hin') as (p & page & Hp & Hk & Hload & Hu).
    assert (k = 0) as -> by lia.
    assert (p = startUrl) as -> by (apply Hroot, elem_of_app; auto).
    eauto.
Qed.

Lemma crawl_depth_limit_witness :
  ∃ run st,
    crawl Sites.chain 10 (str "https://a.test/") defaultOptions = Some run
    ∧ lastState run = Some st
    ∧ url <$> results st = [str "https://a.test/"; str "https://a.test/1"]
    ∧ (∀ u k, (u, k) ∈ queue st ++ attempts st → k ≤ depth defaultOptions)
    ∧ (∀ u k, (u, S k) ∈ queue st ++ attempts st →
         ∃ p page, (p, k) ∈ attempts st ∧ k < depth defaultOptions
                   ∧ loads Sites.chain defaultOptions p page
                   ∧ u ∈ linksOf page)
    ∧ (depth defaultOptions = 1 →
         ∀ u k, (u, k) ∈ attempts st →
           u = str "https://a.test/"
           ∨ ∃ page, loads Sites.chain defaultOptions (str "https://a.test/") page
                     ∧ u ∈ linksOf page).
Proof.
  crawled Sites.chain 10 (str "https://a.test/") defaultOptions.
  split; [reflexivity|].
  eapply (crawl_depth_limit Sites.chain 10 (str "https://a.test/")
            defaultOptions); [vm_compute; reflexivity|reflexivity].
Defined.




(** C6. [crawlWebsite] ends, and what it returns has at most [maxPages]
    page records.  It has exactly [maxPages] whenever there are that many
    distinct addresses that can be discovered within the depth limit, are
    on the start address's host, pass the robots check and load. *)
Theorem crawlWebsite_page_ceiling (web : Web) (startUrl : list N)
    (options : Options) :
  (∃ fuel outcome, crawlWebsite web fuel startUrl options = Some outcome)
  ∧ ∀ fuel results,
      crawlWebsite web fuel startUrl options = Some (Returned results) →
      length results ≤ maxPages options
      ∧ ∀ baseUrl found,
          parseURL web startUrl = Some baseUrl →
          NoDup found →
          maxPages options ≤ length found →
          (∀ u, u ∈ found →
             ∃ k page,
               discoverable web options baseUrl
                 (loadRobots web options baseUrl) startUrl u k
               ∧ inScope web baseUrl u
               ∧ allowed web options (loadRobots web options baseUrl) u
               ∧ loads web options u page) →
          length results = maxPages options.
Proof.
  split.
  { destruct (crawl_terminates web options startUrl) as (fuel & run & Hrun).
    exists fuel. unfold crawlWebsite. rewrite Hrun. destruct run; eauto. }
  intros fuel results Hweb.
  destruct (crawlWebsite_crawl _ _ _ _ _ Hweb) as (st & Hrun & ->).
  destruct (crawl_invariant _ _ _ _ _ st Hrun eq_refl)
    as (baseUrl & Hbase & _ & _ & Hrec & _ & _ & Hbound & _ & Hclosed).
  split; [exact Hbound|].
  intros baseUrl' found Hbase' Hnd Hmany Hfound.
  assert (baseUrl' = baseUrl) as -> by congruence.
  destruct (decide (length (results st) < maxPages options)) as [Hlt|Hge];
    [exfalso|unfold bounded in Hbound; lia].
  destruct (crawl_loop _ _ _ _ _ st Hrun eq_refl)
    as (baseUrl' & step & Hbase'' & Hloop & _ & Hcont).
  assert (baseUrl' = baseUrl) as -> by congruence.
  rewrite (Hcont st eq_refl) in Hloop.
  destruct (loop_exit _ _ _ _ _ _ _ Hloop) as [Hempty|?]; [|lia].
  assert (Hsub : found ⊆+ url <$> results st).
  { apply NoDup_submseteq; [done|]. intros u Hu.
    destruct (Hfound u Hu) as (k & page & Hdisc & Hscope & Hallow & Hload).
    destruct (closed_complete _ _ _ _ _ _ _ _ Hempty Hclosed Hdisc Hscope Hallow)
      as (j & _ & Hatt).
    apply list_elem_of_fmap. exists (record u page). split; [done|].
    by eapply recorded_loaded. }
  apply submseteq_length in Hsub. rewrite length_fmap in Hsub. lia.
Qed.

Lemma crawlWebsite_page_ceiling_witness :
  ∃ results,
    crawlWebsite Sites.hub 10 (str "https://a.test/")
      {| depth := 1; selector := str "body"; maxPages := 5;
         respectRobotsTxt := true; waitTime := 1000 |} = Some (Returned results)
    ∧ length results = 5.
Proof.
  pose (opts := {| depth := 1; selector := str "body"; maxPages := 5;
                   respectRobotsTxt := true; waitTime := 1000 |}).
  pose (base := {| protocol := str "https:"; hostname := str "a.test";
                   port := []; pathname := str "/" |}).
  assert (Hbase : simpleURL (str "https://a.test/") = Some base)
    by (vm_compute; reflexivity).
  let r := eval vm_compute in
             (crawlWebsite Sites.hub 10 (str "https://a.test/") opts) in
  lazymatch r with
  | Some (Returned ?results) =>
      assert (Hrun : crawlWebsite Sites.hub 10 (str "https://a.test/") opts
                     = Some (Returned results)) by (vm_compute; reflexivity);
      exists results
  end.
  split; [exact Hrun|].
  apply (proj2 (crawlWebsite_page_ceiling Sites.hub (str "https://a.test/") opts)
           10 _ Hrun) with
    (baseUrl := base)
    (found := [str "https://a.test/"; str "https://a.test/1";
               str "https://a.test/2"; str "https://a.test/3";
               str "https://a.test/4"]).
  - exact Hbase.
  - refine (bool_decide_unpack _ _). vm_compute. exact I.
  - simpl. lia.
  - clear Hbase Hrun.
    assert (Hseed : ∃ page, loads Sites.hub opts (str "https://a.test/") page
                      ∧ linksOf page = str <$>
                          ["https://a.test/1"; "https://a.test/2";
                           "https://a.test/3"; "https://a.test/4";
                           "https://a.test/5"; "https://a.test/6"]%string).
    { eexists. split; vm_compute; reflexivity. }
    destruct Hseed as (seedPage & Hload & Hlinks).
    assert (Hscope : ∀ u, bool_decide
              (hostname <$> simpleURL u = Some (str "a.test")) = true →
              inScope Sites.hub base u).
    { intros u Hu. apply bool_decide_eq_true in Hu. unfold inScope. simpl.
      destruct (simpleURL u) as [uo|]; [|done]. injection Hu as Hu. eauto. }
    intros u Hu. apply list_elem_of_In in Hu. simpl in Hu.
    destruct Hu as [<-|Hu].
    { exists 0. eexists. split; [constructor|]. split; [by apply Hscope|].
      split; vm_compute; reflexivity. }
    exists 1. eexists. split.
    { eapply disc_link; [constructor|simpl; lia|by apply Hscope
                        |vm_compute; reflexivity|exact Hload|].
      rewrite Hlinks. apply list_elem_of_In. simpl. tauto. }
    split.
    { apply Hscope. repeat (destruct Hu as [<-|Hu]; [vm_compute; reflexivity|]).
      done. }
    repeat (destruct Hu as [<-|Hu]; [split; vm_compute; reflexivity|]). done.
Defined.

(** ** [processText] *)

Section ProcessFacts.

Variable client : Client.
Variable options : ProcessOptions.

Lemma chunkLoop_outputs todo : ∀ i processedChunks,
  chunkLoop client options todo i processedChunks
  = processedChunks ++ imap (λ j, chunkOutput client options (i + j)) todo.
Proof.
  induction todo as [|chunk rest IH]; intros i acc; simpl.
  - by rewrite app_nil_r.
  - unfold chunkOutput at 1. rewrite Nat.add_0_r.
    destruct (client i _) as [text|message]; rewrite IH, <- app_assoc; simpl;
      do 2 f_equal; apply imap_ext; intros j x _; simpl; f_equal; lia.
Qed.

Lemma processText_returns now crawlResults :
  ∃ chunks,
    createChunks (combineText crawlResults) (N.to_nat 100000) = Some chunks
    ∧ processText (Some client) now crawlResults options =
      let outputs := imap (chunkOutput client options) chunks in
      Some (Synthesis (task options)
              (if length outputs >? 1 then
                 match client (length chunks)
                         (request options
                            (combiningPrompt (join [LF; LF] outputs))) with
                 | inl text => text
                 | inr _ => join [LF; LF] outputs
                 end
               else join [LF; LF] outputs)
              {| metaModel := model options; processedAt := now;
                 pagesProcessed := length crawlResults;
                 chunksProcessed := length chunks |}
              crawlResults).
Proof.
  destruct (createChunks_norm (N.to_nat 100000) (Pos2Nat.is_pos _)
              (combineText crawlResults)) as (chunks & Hchunks & _).
  exists chunks. split; [done|].
  unfold processText. rewrite Hchunks. simpl.
  rewrite chunkLoop_outputs. simpl. done.
Qed.

End ProcessFacts.



(** C9. Without a client [processText] returns, without calling anything,
    the untouched page records under an [error] field; with a client it
    always returns the other shape, so the two cannot be confused. *)
Theorem processText_without_client (now : list N)
    (crawlResults : list PageData) (options : ProcessOptions) :
  processText None now crawlResults options
  = Some (Skipped (str "Anthropic API key not configured") crawlResults)
  ∧ ∀ client now' crawlResults' options',
      ∃ result meta,
        processText (Some client) now' crawlResults' options'
        = Some (Synthesis (task options') result meta crawlResults').
Proof.
  split; [done|]. intros client now' crawlResults' options'.
  destruct (processText_returns client options' now' crawlResults')
    as (chunks & _ & ->). eauto.
Qed.

(** ** More on [createChunks]: the sizes of the chunks *)

Section ChunkSizes.

Variable M : nat.

Lemma Forall_flush (P : list N → Prop) (chunks : list (list N)) (cur : list N) :
  Forall P chunks → (0 < length cur → P cur) →
  Forall P (if length cur >? 0 then chunks ++ [cur] else chunks).
Proof.
  intros Hchunks Hcur. destruct (length cur >? 0) eqn:Hlen; [|done].
  apply Nat.ltb_lt in Hlen. apply Forall_app. split; [done|].
  by repeat constructor; apply Hcur.
Qed.

(** With [maxChunkSize = 0] the slicing loop never leaves a sentence it has
    entered, whatever the fuel. *)
Lemma sliceLoop_zero sentence fuel : ∀ i chunks,
  i < length sentence → sliceLoop fuel sentence 0 i chunks = None.
Proof.
  induction fuel as [|fuel IH]; intros i chunks Hi; simpl;
    rewrite (proj2 (Nat.ltb_lt _ _) Hi); [done|].
  rewrite Nat.add_0_r. by apply IH.
Qed.

Lemma sliceLoop_some sentence fuel : ∀ i chunks r,
  sliceLoop fuel sentence M i chunks = Some r →
  ∃ sl, r = chunks ++ sl
        ∧ Forall (λ c, 0 < length c ∧ length c ≤ M) sl.
Proof.
  induction fuel as [|fuel IH]; intros i chunks r; simpl.
  - destruct (i <? length sentence); [done|]. intros [= <-].
    exists []. by rewrite app_nil_r.
  - destruct (i <? length sentence) eqn:Hi.
    + apply Nat.ltb_lt in Hi. intros Hr.
      destruct (decide (M = 0)) as [->|HM].
      { rewrite Nat.add_0_r, sliceLoop_zero in Hr; done. }
      apply IH in Hr as (sl & -> & Hsl).
      exists (slice sentence i (i + M) :: sl). rewrite <- app_assoc.
      split; [done|]. constructor; [|done].
      unfold slice. rewrite length_take, length_drop. lia.
    + intros [= <-]. exists []. by rewrite app_nil_r.
Qed.

Lemma sentenceLoop_sizes sentences : ∀ chunks sc chunks' sc',
  Forall (λ c, 0 < length c ∧ length c ≤ M + 1) chunks →
  length sc ≤ M + 1 →
  sentenceLoop M sentences chunks sc = Some (chunks', sc') →
  Forall (λ c, 0 < length c ∧ length c ≤ M + 1) chunks'
  ∧ length sc' ≤ M + 1.
Proof.
  induction sentences as [|s rest IH]; intros chunks sc chunks' sc' Hc Hsc.
  - by intros [= <- <-].
  - rewrite sentenceLoop_cons.
    assert (Hflush : Forall (λ c, 0 < length c ∧ length c ≤ M + 1)
                       (if length sc >? 0 then chunks ++ [sc] else chunks))
      by (apply Forall_flush; [done|lia]).
    destruct (length sc + length s >? M) eqn:Hover.
    + rewrite flush_rest. destruct (length s >? M) eqn:Hbig.
      * destruct (sliceLoop _ _ _ _ _) as [r|] eqn:Hslice; [|done].
        apply sliceLoop_some in Hslice as (sl & -> & Hsl).
        cbn [mbind option_bind]. apply IH; [|simpl; lia].
        apply Forall_app. split; [done|].
        eapply Forall_impl; [exact Hsl|]. simpl. lia.
      * apply Nat.ltb_ge in Hbig. apply IH; [done|lia].
    + apply Nat.ltb_ge in Hover. apply IH; [done|].
      rewrite !length_app. destruct (decide (sc = [])); simpl; lia.
Qed.

Lemma paragraphLoop_sizes paragraphs : ∀ chunks cur chunks' cur',
  Forall (λ c, 0 < length c ∧ length c ≤ M + 1) chunks →
  length cur ≤ M →
  paragraphLoop M paragraphs chunks cur = Some (chunks', cur') →
  Forall (λ c, 0 < length c ∧ length c ≤ M + 1) chunks'
  ∧ length cur' ≤ M.
Proof.
  induction paragraphs as [|p rest IH]; intros chunks cur chunks' cur' Hc Hcur.
  - by intros [= <- <-].
  - rewrite paragraphLoop_cons.
    assert (Hflush : Forall (λ c, 0 < length c ∧ length c ≤ M + 1)
                       (if length cur >? 0 then chunks ++ [cur] else chunks))
      by (apply Forall_flush; [done|lia]).
    destruct (length cur + length p + 2 >? M) eqn:Hover.
    + rewrite flush_rest. destruct (length p >? M) eqn:Hbig.
      * destruct (sentenceLoop _ _ _ _) as [[chunks2 sc]|] eqn:Hsent; [|done].
        apply sentenceLoop_sizes in Hsent as [Hc2 Hsc]; [|done|simpl; lia].
        cbn [mbind option_bind]. apply IH; [|simpl; lia].
        apply Forall_flush; [done|lia].
      * apply Nat.ltb_ge in Hbig. apply IH; [done|lia].
    + apply Nat.ltb_ge in Hover. apply IH; [done|].
      rewrite !length_app. destruct (decide (cur = [])); simpl; lia.
Qed.

(** As long as no paragraph is sent to the sentence level, the ceiling
    holds as it is. *)
Lemma paragraphLoop_exact paragraphs : ∀ chunks cur chunks' cur',
  Forall (λ p, length p ≤ M) paragraphs →
  Forall (λ c, length c ≤ M) chunks →
  length cur ≤ M →
  paragraphLoop M paragraphs chunks cur = Some (chunks', cur') →
  Forall (λ c, length c ≤ M) chunks' ∧ length cur' ≤ M.
Proof.
  induction paragraphs as [|p rest IH];
    intros chunks cur chunks' cur' Hps Hc Hcur.
  - by intros [= <- <-].
  - apply Forall_cons in Hps as [Hp Hrest]. rewrite paragraphLoop_cons.
    destruct (length cur + length p + 2 >? M) eqn:Hover.
    + rewrite (proj2 (Nat.ltb_ge _ _) Hp).
      apply IH; [done| |done]. by apply Forall_flush.
    + apply Nat.ltb_ge in Hover. apply IH; [done|done|].
      rewrite !length_app. destruct (decide (cur = [])); simpl; lia.
Qed.

End ChunkSizes.

(** X1. For a positive [maxChunkSize] no chunk is longer than
    [maxChunkSize + 1]: the sentence-level join can overshoot by its one
    space and by no more. *)
Theorem createChunks_within_one (T : list N) (M : nat) :
  0 < M →
  ∃ chunks, createChunks T M = Some chunks
    ∧ Forall (λ c, length c ≤ M + 1) chunks.
Proof.
  intros HM. destruct (createChunks_norm M HM T) as (chunks & Heq & _).
  exists chunks. split; [done|]. unfold createChunks in Heq.
  destruct (length T <=? M) eqn:Hlen.
  - injection Heq as <-. apply Nat.leb_le in Hlen.
    repeat constructor. lia.
  - destruct (paragraphLoop _ _ _ _) as [[chunks1 cur]|] eqn:Hloop; [|done].
    injection Heq as <-.
    apply paragraphLoop_sizes in Hloop as [Hc Hcur]; [|constructor|simpl; lia].
    eapply Forall_impl; [apply Forall_flush; [exact Hc|]|]; simpl; lia.
Qed.

Lemma createChunks_within_one_witness :
  0 < 5 ∧ ∃ chunks, createChunks (str "ab. cd. ef. gh") 5 = Some chunks
    ∧ Forall (λ c, length c ≤ 5 + 1) chunks.
Proof. split; [lia|]. apply createChunks_within_one. lia. Defined.

(** X2. A text longer than [maxChunkSize] never yields an empty chunk. *)
Theorem createChunks_no_empty_chunk (T : list N) (M : nat) :
  0 < M → M < length T →
  ∃ chunks, createChunks T M = Some chunks ∧ Forall (λ c, c ≠ []) chunks.
Proof.
  intros HM Hlong. destruct (createChunks_norm M HM T) as (chunks & Heq & _).
  exists chunks. split; [done|]. unfold createChunks in Heq.
  rewrite (proj2 (Nat.leb_gt _ _) Hlong) in Heq.
  destruct (paragraphLoop _ _ _ _) as [[chunks1 cur]|] eqn:Hloop; [|done].
  injection Heq as <-.
  apply paragraphLoop_sizes in Hloop as [Hc Hcur]; [|constructor|simpl; lia].
  eapply Forall_impl; [apply Forall_flush; [exact Hc|]|]; simpl.
  - intros ?. split; [done|lia].
  - intros c [Hpos _] ->. simpl in Hpos. lia.
Qed.

Lemma createChunks_no_empty_chunk_witness :
  0 < 3 ∧ 3 < length (str "

a

") ∧ ∃ chunks, createChunks (str "

a

") 3 = Some chunks ∧ Forall (λ c, c ≠ []) chunks.
Proof.
  split; [lia|]. split; [simpl; lia|].
  apply createChunks_no_empty_chunk; simpl; lia.
Defined.

(** X3. When no paragraph of the text is longer than [maxChunkSize], every
    chunk is within [maxChunkSize]: only the sentence level overshoots. *)
Theorem createChunks_paragraphs_fit (T : list N) (M : nat)
    (chunks : list (list N)) :
  Forall (λ p, length p ≤ M) (split paragraphBreak T) →
  createChunks T M = Some chunks →
  Forall (λ c, length c ≤ M) chunks.
Proof.
  intros Hps. unfold createChunks. destruct (length T <=? M) eqn:Hlen.
  - intros [= <-]. apply Nat.leb_le in Hlen. by repeat constructor.
  - destruct (paragraphLoop _ _ _ _) as [[chunks1 cur]|] eqn:Hloop; [|done].
    intros [= <-].
    apply paragraphLoop_exact in Hloop as [Hc Hcur];
      [|done|constructor|simpl; lia].
    by apply Forall_flush.
Qed.

Lemma createChunks_paragraphs_fit_witness :
  Forall (λ p, length p ≤ 6) (split paragraphBreak (str "ab

cd

ef. gh"))
  ∧ createChunks (str "ab

cd

ef. gh") 6 = Some [str "ab

cd"; str "ef. gh"]
  ∧ Forall (λ c, length c ≤ 6) [str "ab

cd"; str "ef. gh"].
Proof.
  assert (H : Forall (λ p, length p ≤ 6) (split paragraphBreak (str "ab

cd

ef. gh"))).
  { refine (bool_decide_unpack _ _). vm_compute. exact I. }
  split; [exact H|]. split; [reflexivity|].
  by apply (createChunks_paragraphs_fit _ 6 _ H).
Defined.

Section ChunkZero.

(** The first piece of a split by sentences is never empty, unless the
    paragraph is. *)
Lemma split_sentences_head c rest :
  ∃ p ps, split sentenceBreak (c :: rest) = (c :: p) :: ps.
Proof.
  change (split sentenceBreak (c :: rest))
    with (splitLoop sentenceBreak (Some c) 0 [c] rest).
  destruct (splitLoop_segs sentenceBreak sentenceBreak_white rest (Some c) 0 [c])
    as (p & segs & -> & _); [auto|lia|constructor|].
  exists p, (map snd segs). done.
Qed.

Lemma paragraphLoop_zero paragraphs :
  Exists (λ p, p ≠ []) paragraphs → paragraphLoop 0 paragraphs [] [] = None.
Proof.
  induction paragraphs as [|p rest IH]; intros Hex.
  - by apply Exists_nil in Hex.
  - rewrite paragraphLoop_cons. destruct p as [|c p].
    + apply Exists_cons in Hex as [?|Hex]; [done|]. by apply IH.
    + change (length [] + length (c :: p) + 2 >? 0) with true.
      change (length (c :: p) >? 0) with true. cbv iota.
      destruct (split_sentences_head c p) as (s & ss & ->).
      rewrite sentenceLoop_cons.
      change (length [] + length (c :: s) >? 0) with true.
      change (length (c :: s) >? 0) with true. cbv iota.
      rewrite sliceLoop_zero by (simpl; lia). done.
Qed.

Lemma split_nonWhite m s :
  whiteMatcher m → nonWhite s ≠ [] → Exists (λ p, p ≠ []) (split m s).
Proof.
  intros Hm Hs. destruct (split_segs m s Hm) as (segs & -> & <- & Hgood).
  assert (Hall : Forall (λ wp : list N * list N, allWhite wp.1) segs).
  { destruct segs as [|wp segs]; [constructor|].
    destruct Hgood as (Hw & _ & Hrest). constructor; [done|].
    eapply Forall_impl; [exact Hrest|]. by intros ? [? _]. }
  clear Hgood. induction segs as [|[w p] segs IH]; [done|].
  apply Forall_cons in Hall as [Hw Hall]. simpl in Hw.
  rewrite segText_cons in Hs. cbn [fst snd] in Hs.
  rewrite !nonWhite_app, (nonWhite_allWhite w Hw) in Hs.
  simpl in Hs. destruct p as [|c p].
  - simpl in Hs. right. by apply IH.
  - by left.
Qed.

End ChunkZero.

(** X4. With [maxChunkSize = 0] the call does not return for any text that
    holds a code unit other than white space: the slicing loop adds 0 to
    its index and never leaves the sentence, however long it runs. *)
Theorem createChunks_zero_hangs (T : list N) :
  nonWhite T ≠ [] →
  createChunks T 0 = None
  ∧ ∀ fuel sentence i chunks,
      i < length sentence → sliceLoop fuel sentence 0 i chunks = None.
Proof.
  intros HT. split; [|intros; by apply sliceLoop_zero].
  unfold createChunks. destruct T as [|t T']; [done|].
  change (length (t :: T') <=? 0) with false. cbv iota.
  rewrite paragraphLoop_zero; [done|].
  by apply split_nonWhite; [apply paragraphBreak_white|].
Qed.

Lemma createChunks_zero_hangs_witness :
  nonWhite (str "a b") ≠ []
  ∧ createChunks (str "a b") 0 = None
  ∧ ∀ fuel sentence i chunks,
      i < length sentence → sliceLoop fuel sentence 0 i chunks = None.
Proof.
  assert (H : nonWhite (str "a b") ≠ []) by done.
  split; [exact H|]. by apply createChunks_zero_hangs.
Defined.

Section ChunkSlices.

(** A matcher that takes white space finds nothing in a text without any. *)
Lemma splitLoop_plain m :
  whiteMatcher m → ∀ s prev acc,
  Forall (λ c, isWhiteSpace c = false) s →
  splitLoop m prev 0 acc s = [reverse acc ++ s].
Proof.
  intros Hm. induction s as [|c r IH]; intros prev acc Hs; simpl.
  - by rewrite app_nil_r.
  - apply Forall_cons in Hs as [Hc Hr].
    destruct (m prev (c :: r)) as [n|] eqn:Hmatch.
    + apply Hm in Hmatch as (Hpos & _ & Hw).
      destruct n as [|n]; [lia|].
      change (allWhite (c :: take n r)) in Hw.
      apply Forall_cons in Hw as [Hw _]. congruence.
    + rewrite IH by done. by rewrite reverse_cons, <- app_assoc.
Qed.

Lemma split_plain m s :
  whiteMatcher m → Forall (λ c, isWhiteSpace c = false) s → split m s = [s].
Proof.
  intros Hm Hs. destruct s as [|c r].
  - simpl. destruct (m None []) as [n|] eqn:Hn; [|done].
    apply Hm in Hn. simpl in Hn. lia.
  - change (split m (c :: r)) with (splitLoop m None 0 [] (c :: r)).
    by rewrite splitLoop_plain.
Qed.

(** The slices, one by one. *)
Lemma sliceLoop_slices sentence M :
  0 < M → ∀ fuel i chunks,
  length sentence ≤ i + fuel * M →
  ∃ sl, sliceLoop fuel sentence M i chunks = Some (chunks ++ sl)
        ∧ concat sl = drop i sentence
        ∧ ∀ j c, sl !! j = Some c →
                 c = slice sentence (i + j * M) (i + j * M + M).
Proof.
  intros HM. induction fuel as [|f IH]; intros i chunks Hlen; simpl.
  - destruct (i <? length sentence) eqn:Hi.
    { apply Nat.ltb_lt in Hi. lia. }
    exists []. rewrite app_nil_r, drop_ge by lia. repeat split; done.
  - destruct (i <? length sentence) eqn:Hi.
    + apply Nat.ltb_lt in Hi.
      destruct (IH (i + M) (chunks ++ [slice sentence i (i + M)]))
        as (sl & -> & Hcat & Hnth); [lia|].
      exists (slice sentence i (i + M) :: sl).
      rewrite <- app_assoc. split; [done|]. split.
      * simpl. rewrite Hcat. unfold slice.
        replace (i + M - i) with M by lia.
        by rewrite <- (drop_drop sentence M i), take_drop.
      * intros [|j] c; simpl.
        -- intros [= <-]. by rewrite Nat.add_0_r.
        -- intros Hj. apply Hnth in Hj as ->. f_equal; lia.
    + apply Nat.ltb_ge in Hi.
      exists []. rewrite app_nil_r, drop_ge by lia. repeat split; done.
Qed.

End ChunkSlices.

(** X19. A text with no white space in it that is longer than
    [maxChunkSize] is cut into slices of exactly [maxChunkSize] code units,
    the last one possibly shorter; put end to end they are the text. *)
Theorem createChunks_slices (T : list N) (M : nat) :
  0 < M → M < length T →
  Forall (λ c, isWhiteSpace c = false) T →
  ∃ chunks, createChunks T M = Some chunks
    ∧ concat chunks = T
    ∧ ∀ j c, chunks !! j = Some c → c = slice T (j * M) (j * M + M).
Proof.
  intros HM Hlong Hplain.
  destruct (sliceLoop_slices T M HM (length T) 0 []) as (sl & Hsl & Hcat & Hnth);
    [nia|].
  exists sl. split; [|split; [by rewrite Hcat|exact Hnth]].
  unfold createChunks. rewrite (proj2 (Nat.leb_gt _ _) Hlong).
  rewrite (split_plain _ _ paragraphBreak_white Hplain).
  rewrite paragraphLoop_cons.
  replace (length [] + length T + 2 >? M) with true
    by (symmetry; apply Nat.ltb_lt; simpl; lia).
  rewrite (proj2 (Nat.ltb_lt _ _) Hlong).
  rewrite (split_plain _ _ sentenceBreak_white Hplain).
  rewrite sentenceLoop_cons.
  replace (length [] + length T >? M) with true
    by (symmetry; apply Nat.ltb_lt; simpl; lia).
  rewrite (proj2 (Nat.ltb_lt _ _) Hlong).
  change (length (@nil N) >? 0) with false. cbv iota.
  rewrite Hsl. simpl. destruct sl; done.
Qed.

Lemma createChunks_slices_witness :
  0 < 4 ∧ 4 < length (str "abcdefghij")
  ∧ Forall (λ c, isWhiteSpace c = false) (str "abcdefghij")
  ∧ ∃ chunks, createChunks (str "abcdefghij") 4 = Some chunks
      ∧ concat chunks = str "abcdefghij"
      ∧ ∀ j c, chunks !! j = Some c →
               c = slice (str "abcdefghij") (j * 4) (j * 4 + 4).
Proof.
  assert (H : Forall (λ c, isWhiteSpace c = false) (str "abcdefghij")).
  { refine (bool_decide_unpack _ _). vm_compute. exact I. }
  split; [lia|]. split; [simpl; lia|]. split; [exact H|].
  apply createChunks_slices; [lia|simpl; lia|exact H].
Defined.

(** ** More on robots.txt *)

Section RobotsLines.

Lemma splitChar_nonempty c s : splitChar c s ≠ [].
Proof.
  destruct s as [|x r]; simpl; [done|].
  destruct (x =? c)%N; [done|]. by destruct (splitChar c r).
Qed.

Lemma splitChar_none c s : c ∉ s → splitChar c s = [s].
Proof.
  induction s as [|x r IH]; simpl; [done|].
  intros Hin. apply not_elem_of_cons in Hin as [Hx Hr].
  destruct (x =? c)%N eqn:Hxc; [apply N.eqb_eq in Hxc; congruence|].
  by rewrite IH.
Qed.

Lemma splitChar_app c a b :
  splitChar c (a ++ c :: b) = splitChar c a ++ splitChar c b.
Proof.
  induction a as [|x a IH]; simpl.
  - by rewrite N.eqb_refl.
  - destruct (x =? c)%N; [by rewrite IH|].
    rewrite IH. pose proof (splitChar_nonempty c a).
    by destruct (splitChar c a).
Qed.

(** What [split(':')[1]] keeps: the text between the first colon and the
    second, if there is a second. *)
Lemma splitChar_second c key a rest :
  c ∉ key → c ∉ a →
  splitChar c (key ++ c :: a) !! 1 = Some a
  ∧ splitChar c (key ++ c :: a ++ c :: rest) !! 1 = Some a.
Proof.
  intros Hkey Ha. rewrite !splitChar_app, (splitChar_none c key Hkey),
    (splitChar_none c a Ha). done.
Qed.

Lemma lowerUnit_colon c : lowerUnit c = 58%N → c = 58%N.
Proof.
  unfold lowerUnit. destruct ((65 <=? c) && (c <=? 90))%N eqn:Hc; [|done].
  apply andb_true_iff in Hc as [H1 H2].
  apply N.leb_le in H1, H2. lia.
Qed.

Lemma elem_of_split (c : N) (s : list N) :
  c ∈ s → ∃ key rest, s = key ++ c :: rest ∧ c ∉ key.
Proof.
  induction s as [|x r IH]; [by intros ?%elem_of_nil|].
  destruct (decide (x = c)) as [->|Hne].
  - intros _. exists [], r. split; [done|]. apply not_elem_of_nil.
  - intros [?|Hin]%elem_of_cons; [done|].
    destruct (IH Hin) as (key & rest & -> & Hkey).
    exists (x :: key), rest. split; [done|].
    apply not_elem_of_cons. auto.
Qed.

(** A line with a colon always has something, possibly empty, after it. *)
Lemma afterColon_some l : 58%N ∈ l → ∃ path, afterColon l = Some path.
Proof.
  intros (key & rest & -> & Hkey)%elem_of_split. unfold afterColon.
  rewrite splitChar_app, (splitChar_none _ key Hkey). simpl.
  pose proof (splitChar_nonempty 58%N rest).
  destruct (splitChar 58%N rest) as [|p ps]; [done|]. simpl. eauto.
Qed.

Lemma startsWith_elem s p c : startsWith s p = true → c ∈ p → c ∈ s.
Proof.
  intros [k ->]%startsWith_prefix Hc. apply elem_of_app. auto.
Qed.

Lemma keyword_colon l kw :
  startsWith (toLowerCase l) kw = true → 58%N ∈ kw → 58%N ∈ l.
Proof.
  intros Hs Hkw. pose proof (startsWith_elem _ _ _ Hs Hkw) as Hin.
  unfold toLowerCase in Hin.
  apply list_elem_of_fmap in Hin as (c & Hc & Hin).
  symmetry in Hc. apply lowerUnit_colon in Hc. by subst.
Qed.

(** A line the parser takes for an [Allow] directive. *)
Lemma allow_line rules ua line :
  startsWith (toLowerCase (trim line)) (str "allow:") = true →
  ∃ path, afterColon (trim line) = Some path ∧
  parseLine (rules, ua) line =
    (allow' ← push (ensure (allow rules) ua) ua path;
     Some ({| allow := allow'; disallow := disallow rules |}, ua)).
Proof.
  intros Hkey.
  destruct (afterColon_some (trim line)) as (path & Hpath).
  { eapply keyword_colon; [done|]. by apply list_elem_of_In; vm_compute; tauto. }
  exists path. split; [done|]. unfold parseLine. rewrite Hkey, Hpath.
  destruct (trim line) as [|c r]; [done|].
  change (toLowerCase (c :: r)) with (lowerUnit c :: toLowerCase r) in *.
  change (str "allow:") with (97%N :: str "llow:") in Hkey.
  rewrite startsWith_cons in Hkey. apply andb_true_iff in Hkey as [Hc _].
  apply N.eqb_eq in Hc.
  assert (Hhash : startsWith (c :: r) (str "#") = false).
  { change (str "#") with [35%N]. rewrite startsWith_cons.
    destruct (35 =? c)%N eqn:H35; [|done].
    apply N.eqb_eq in H35 as <-. done. }
  rewrite Hhash.
  replace (bool_decide (c :: r = [])) with false
    by (symmetry; by apply bool_decide_eq_false).
  assert (Hua : startsWith (lowerUnit c :: toLowerCase r) (str "user-agent:")
                = false).
  { change (str "user-agent:") with (117%N :: str "ser-agent:").
    rewrite startsWith_cons, <- Hc. done. }
  rewrite Hua. done.
Qed.

Lemma disallow_line' rules ua line :
  startsWith (toLowerCase (trim line)) (str "disallow:") = true →
  ∃ path, afterColon (trim line) = Some path ∧
  parseLine (rules, ua) line =
    (disallow' ← push (ensure (disallow rules) ua) ua path;
     Some ({| allow := allow rules; disallow := disallow' |}, ua)).
Proof.
  intros Hkey.
  destruct (afterColon_some (trim line)) as (path & Hpath).
  { eapply keyword_colon; [done|]. by apply list_elem_of_In; vm_compute; tauto. }
  exists path. split; [done|]. by apply disallow_line.
Qed.

(** A comment or a blank line leaves the parser's state as it is. *)
Lemma comment_line st line :
  startsWith (trim line) (str "#") = true ∨ trim line = [] →
  parseLine st line = Some st.
Proof.
  intros H. destruct st as [rules ua]. unfold parseLine.
  destruct H as [Hc|Hb]; [by rewrite Hc|].
  rewrite Hb. done.
Qed.

(** No own property ever bears a name inherited from [Object.prototype]. *)
Lemma ensure_own obj key k :
  inherited k = true → obj !! k = None → ensure obj key !! k = None.
Proof.
  intros Hk Hnone. unfold ensure. destruct (obj !! key) eqn:Hkey; [done|].
  destruct (inherited key) eqn:Hin; [done|].
  rewrite lookup_insert_ne; [done|]. congruence.
Qed.

Lemma push_own obj key path obj' k :
  push obj key path = Some obj' → obj !! k = None → obj' !! k = None.
Proof.
  unfold push. destruct (obj !! key) as [paths|] eqn:Hkey; [|done].
  intros [= <-] Hnone. rewrite lookup_insert_ne; [done|]. congruence.
Qed.

Lemma parseLine_own st line st' k :
  inherited k = true →
  parseLine st line = Some st' →
  allow st.1 !! k = None ∧ disallow st.1 !! k = None →
  allow st'.1 !! k = None ∧ disallow st'.1 !! k = None.
Proof.
  intros Hk. destruct st as [rules ua]. unfold parseLine.
  destruct (_ || _); [by intros [= <-]|].
  destruct (startsWith _ (str "user-agent:")).
  { destruct (afterColon _) as [agent|]; [|done]. simpl. intros [= <-]. simpl.
    intros [? ?]. split; by apply ensure_own. }
  destruct (startsWith _ (str "allow:")).
  { destruct (afterColon _) as [path|]; [|done]. simpl.
    destruct (push _ _ _) as [a|] eqn:Hpush; [|done]. simpl.
    intros [= <-]. simpl. intros [? ?]. split; [|done].
    eapply push_own; [done|]. by apply ensure_own. }
  destruct (startsWith _ (str "disallow:")); [|by intros [= <-]].
  destruct (afterColon _) as [path|]; [|done]. simpl.
  destruct (push _ _ _) as [d|] eqn:Hpush; [|done]. simpl. intros [= <-]. simpl.
  intros [? ?]. split; [done|].
  eapply push_own; [done|]. by apply ensure_own.
Qed.

Lemma parseLines_own lines : ∀ st st' k,
  inherited k = true →
  parseLines st lines = Some st' →
  allow st.1 !! k = None ∧ disallow st.1 !! k = None →
  allow st'.1 !! k = None ∧ disallow st'.1 !! k = None.
Proof.
  induction lines as [|line rest IH]; intros st st' k Hk; simpl.
  - by intros [= <-].
  - destruct (parseLine st line) as [st1|] eqn:H1; [|done]. simpl.
    intros Hrest Hst. eapply IH; [done|done|]. by eapply parseLine_own.
Qed.




End RobotsLines.

(** X5. A comment line or a blank line put in after any line break of the
    file changes nothing in what [parseRobotsTxt] gives. *)
Theorem parseRobotsTxt_skips_comments (a line b : list N) :
  LF ∉ line →
  startsWith (trim line) (str "#") = true ∨ trim line = [] →
  parseRobotsTxt (a ++ LF :: line ++ LF :: b) = parseRobotsTxt (a ++ LF :: b).
Proof.
  intros Hline Hcomment. unfold parseRobotsTxt. f_equal.
  rewrite !splitChar_app, (splitChar_none LF line Hline).
  set (st0 := ({| allow := ∅; disallow := ∅ |}, wildcard)).
  destruct (parseLines st0 (splitChar LF a)) as [st1|] eqn:Ha.
  - transitivity (parseLines st1 ([line] ++ splitChar LF b)).
    + destruct (parseLines st0 (splitChar LF a ++ [line] ++ splitChar LF b))
        as [fin|] eqn:Hfin.
      * apply parseLines_app in Hfin as (st1' & Ha' & Hrest). congruence.
      * destruct (parseLines st1 ([line] ++ splitChar LF b)) as [fin|] eqn:Hr;
          [|done].
        assert (parseLines st0 (splitChar LF a ++ [line] ++ splitChar LF b)
                = Some fin) by (apply parseLines_app; eauto). congruence.
    + simpl. rewrite (comment_line st1 line Hcomment). simpl.
      destruct (parseLines st0 (splitChar LF a ++ splitChar LF b))
        as [fin|] eqn:Hfin.
      * apply parseLines_app in Hfin as (st1' & Ha' & Hrest). congruence.
      * destruct (parseLines st1 (splitChar LF b)) as [fin|] eqn:Hr; [|done].
        assert (parseLines st0 (splitChar LF a ++ splitChar LF b) = Some fin)
          by (apply parseLines_app; eauto). congruence.
  - destruct (parseLines st0 (splitChar LF a ++ [line] ++ splitChar LF b))
      as [fin|] eqn:H1.
    { apply parseLines_app in H1 as (? & ? & _). congruence. }
    destruct (parseLines st0 (splitChar LF a ++ splitChar LF b))
      as [fin|] eqn:H2; [|done].
    apply parseLines_app in H2 as (? & ? & _). congruence.
Qed.

Lemma parseRobotsTxt_skips_comments_witness :
  parseRobotsTxt (str "User-agent: *" ++ LF :: str "  # staging only"
                    ++ LF :: str "Disallow: /tmp")
  = parseRobotsTxt (str "User-agent: *" ++ LF :: str "Disallow: /tmp").
Proof.
  apply (parseRobotsTxt_skips_comments (str "User-agent: *")
           (str "  # staging only") (str "Disallow: /tmp")).
  - intros Hin. apply list_elem_of_In in Hin. vm_compute in Hin.
    intuition discriminate.
  - left. reflexivity.
Defined.



(** X7. Of a [Disallow] line only the text between the first colon and the
    second is kept: a path that holds a colon is cut there, and the shorter
    prefix is what gets recorded. *)
Theorem parseLine_cuts_at_colon (rules : RobotsRules)
    (ua line key a rest : list N) :
  trim line = key ++ 58%N :: a ++ 58%N :: rest →
  toLowerCase key = str "disallow" →
  58%N ∉ a →
  parseLine (rules, ua) line =
    (disallow' ← push (ensure (disallow rules) ua) ua (trim a);
     Some ({| allow := allow rules; disallow := disallow' |}, ua)).
Proof.
  intros Hline Hkey Ha.
  assert (Hno : 58%N ∉ key).
  { intros Hin. assert (58%N ∈ toLowerCase key) as Hlow.
    { unfold toLowerCase. apply list_elem_of_fmap. exists 58%N. done. }
    rewrite Hkey in Hlow. apply list_elem_of_In in Hlow. vm_compute in Hlow.
    intuition discriminate. }
  apply disallow_line.
  - rewrite Hline. apply startsWith_prefix.
    exists (toLowerCase (a ++ 58%N :: rest)).
    unfold toLowerCase in *. rewrite map_app, Hkey.
    change (map lowerUnit (58%N :: a ++ 58%N :: rest))
      with (58%N :: map lowerUnit (a ++ 58%N :: rest)).
    change (str "disallow:") with (str "disallow" ++ [58%N]).
    by rewrite <- app_assoc.
  - rewrite Hline. unfold afterColon.
    by rewrite (proj2 (splitChar_second 58%N key a rest Hno Ha)).
Qed.

Lemma parseLine_cuts_at_colon_witness :
  parseLine ({| allow := ∅; disallow := ∅ |}, wildcard)
    (str "Disallow: /wiki/Special:Search")
  = (disallow' ← push (ensure ∅ wildcard) wildcard (str "/wiki/Special");
     Some ({| allow := ∅; disallow := disallow' |}, wildcard)).
Proof.
  apply (parseLine_cuts_at_colon {| allow := ∅; disallow := ∅ |} wildcard
           (str "Disallow: /wiki/Special:Search") (str "Disallow")
           (str " /wiki/Special") (str "Search")).
  - reflexivity.
  - reflexivity.
  - intros Hin. apply list_elem_of_In in Hin. vm_compute in Hin.
    intuition discriminate.
Defined.

(** X8. A rule that follows a [User-agent] line naming a member of
    [Object.prototype] ([constructor], [toString], ...) makes
    [parseRobotsTxt] throw; [crawlWebsite] catches it and goes on with no
    rules at all, so nothing is disallowed any more. *)
Theorem parseRobotsTxt_inherited_agent (robotsTxt : list N)
    (before after : list (list N)) (line : list N)
    (st : RobotsRules * list N) :
  splitChar LF robotsTxt = before ++ line :: after →
  parseLines ({| allow := ∅; disallow := ∅ |}, wildcard) before = Some st →
  inherited st.2 = true →
  startsWith (toLowerCase (trim line)) (str "disallow:") = true
  ∨ startsWith (toLowerCase (trim line)) (str "allow:") = true →
  parseRobotsTxt robotsTxt = None
  ∧ ∀ web options baseUrl,
      fetchText web (protocol baseUrl ++ str "//" ++ hostname baseUrl
                       ++ str "/robots.txt") = Some robotsTxt →
      loadRobots web options baseUrl = None
      ∧ ∀ u, allowed web options (loadRobots web options baseUrl) u.
Proof.
  intros Hsplit Hbefore Hinh Hrule.
  assert (Hthrow : parseRobotsTxt robotsTxt = None).
  { unfold parseRobotsTxt. rewrite Hsplit.
    destruct (parseLines _ (before ++ line :: after)) as [fin|] eqn:Hfin;
      [exfalso|done].
    apply parseLines_app in Hfin as (st1 & Hst1 & Hrest).
    rewrite Hbefore in Hst1. injection Hst1 as <-.
    destruct (parseLines_own before _ _ st.2 Hinh Hbefore) as [Hown1 Hown2];
      [done|].
    destruct st as [rules ua]. simpl in Hinh, Hown1, Hown2.
    rewrite parseLines_cons in Hrest. destruct Hrule as [Hd|Ha].
    - destruct (disallow_line' rules ua line Hd) as (path & _ & Hline).
      rewrite Hline in Hrest. unfold push in Hrest.
      rewrite (ensure_own _ ua ua Hinh Hown2) in Hrest. done.
    - destruct (allow_line rules ua line Ha) as (path & _ & Hline).
      rewrite Hline in Hrest. unfold push in Hrest.
      rewrite (ensure_own _ ua ua Hinh Hown1) in Hrest. done. }
  split; [done|]. intros web options baseUrl Hfetch.
  assert (Hload : loadRobots web options baseUrl = None).
  { unfold loadRobots. destruct (respectRobotsTxt options); [|done].
    rewrite Hfetch. simpl. done. }
  split; [done|]. intros u. unfold allowed. rewrite Hload.
  unfold isDisallowed. destruct (parseURL web u); by rewrite andb_false_r.
Qed.

Lemma parseRobotsTxt_inherited_agent_witness :
  parseRobotsTxt (str "User-agent: constructor
Disallow: /private") = None
  ∧ ∀ web options baseUrl,
      fetchText web (protocol baseUrl ++ str "//" ++ hostname baseUrl
                       ++ str "/robots.txt") = Some (str "User-agent: constructor
Disallow: /private") →
      loadRobots web options baseUrl = None
      ∧ ∀ u, allowed web options (loadRobots web options baseUrl) u.
Proof.
  apply (parseRobotsTxt_inherited_agent _ [str "User-agent: constructor"] []
           (str "Disallow: /private")
           ({| allow := ∅; disallow := ∅ |}, str "constructor"));
    [reflexivity|reflexivity|reflexivity|left; reflexivity].
Defined.

Section RobotsTotal.

Lemma ensure_push obj key path :
  inherited key = false → is_Some (push (ensure obj key) key path).
Proof.
  intros Hkey. unfold push, ensure.
  destruct (obj !! key) as [paths|] eqn:Hobj.
  - rewrite Hobj. eauto.
  - rewrite Hkey, lookup_insert_eq. eauto.
Qed.

Lemma parseLine_returns rules ua line :
  inherited ua = false →
  (startsWith (toLowerCase (trim line)) (str "user-agent:") = true →
   ∀ agent, afterColon (trim line) = Some agent → inherited agent = false) →
  ∃ rules' ua', parseLine (rules, ua) line = Some (rules', ua')
                ∧ inherited ua' = false.
Proof.
  intros Hua Hagent. unfold parseLine.
  destruct (_ || _); [eauto|].
  destruct (startsWith _ (str "user-agent:")) eqn:Hkw.
  { destruct (afterColon_some (trim line)) as (agent & Hsome).
    { eapply keyword_colon; [done|].
      by apply list_elem_of_In; vm_compute; tauto. }
    rewrite Hsome. simpl. eauto. }
  destruct (startsWith _ (str "allow:")) eqn:Hal.
  { destruct (afterColon_some (trim line)) as (path & Hsome).
    { eapply keyword_colon; [done|].
      by apply list_elem_of_In; vm_compute; tauto. }
    rewrite Hsome. simpl.
    destruct (ensure_push (allow rules) ua path Hua) as [a ->]. simpl. eauto. }
  destruct (startsWith _ (str "disallow:")) eqn:Hdis; [|eauto].
  destruct (afterColon_some (trim line)) as (path & Hsome).
  { eapply keyword_colon; [done|].
    by apply list_elem_of_In; vm_compute; tauto. }
  rewrite Hsome. simpl.
  destruct (ensure_push (disallow rules) ua path Hua) as [d ->]. simpl. eauto.
Qed.

Lemma parseLines_returns lines : ∀ rules ua,
  inherited ua = false →
  Forall (λ line,
            startsWith (toLowerCase (trim line)) (str "user-agent:") = true →
            ∀ agent, afterColon (trim line) = Some agent →
                     inherited agent = false) lines →
  is_Some (parseLines (rules, ua) lines).
Proof.
  induction lines as [|line rest IH]; intros rules ua Hua Hall;
    [simpl; eauto|].
  rewrite parseLines_cons. apply Forall_cons in Hall as [Hline Hrest].
  destruct (parseLine_returns rules ua line Hua Hline)
    as (rules' & ua' & -> & Hua'). simpl. by apply IH.
Qed.

End RobotsTotal.

(** X18. [parseRobotsTxt] returns for every file none of whose
    [User-agent] lines names a member of [Object.prototype]. *)
Theorem parseRobotsTxt_returns (robotsTxt : list N) :
  Forall (λ line,
            startsWith (toLowerCase (trim line)) (str "user-agent:") = true →
            ∀ agent, afterColon (trim line) = Some agent →
                     inherited agent = false)
         (splitChar LF robotsTxt) →
  is_Some (parseRobotsTxt robotsTxt).
Proof.
  intros Hall. unfold parseRobotsTxt.
  destruct (parseLines_returns (splitChar LF robotsTxt)
              {| allow := ∅; disallow := ∅ |} wildcard) as [st ->];
    [done|done|]. simpl. eauto.
Qed.

Lemma parseRobotsTxt_returns_witness :
  is_Some (parseRobotsTxt (str "User-agent: googlebot
Allow: /a
User-agent: *
Disallow: /b")).
Proof.
  apply parseRobotsTxt_returns.
  assert (H : splitChar LF (str "User-agent: googlebot
Allow: /a
User-agent: *
Disallow: /b") = [str "User-agent: googlebot"; str "Allow: /a";
                 str "User-agent: *"; str "Disallow: /b"])
    by (vm_compute; reflexivity).
  rewrite H. repeat constructor.
  - intros _ agent Hagent. vm_compute in Hagent. injection Hagent as <-.
    vm_compute. reflexivity.
  - intros Hkw. vm_compute in Hkw. discriminate.
  - intros _ agent Hagent. vm_compute in Hagent. injection Hagent as <-.
    vm_compute. reflexivity.
  - intros Hkw. vm_compute in Hkw. discriminate.
Defined.

(** ** More on the crawl *)

Section Dedupe.

Lemma dedupe_spec xs : ∀ seen,
  NoDup (dedupe seen xs)
  ∧ (∀ x, x ∈ dedupe seen xs ↔ x ∈ xs ∧ x ∉ seen)
  ∧ dedupe seen xs `sublist_of` xs.
Proof.
  induction xs as [|x xs IH]; intros seen; simpl.
  - split; [constructor|]. split; [|constructor].
    intros y. split; [by intros ?%elem_of_nil|by intros [?%elem_of_nil _]].
  - destruct (decide (x ∈ seen)) as [Hin|Hout].
    + destruct (IH seen) as (Hnd & Hmem & Hsub). split; [done|]. split.
      * intros y. rewrite Hmem, elem_of_cons. split; [tauto|].
        intros [[->|?] ?]; tauto.
      * by constructor.
    + destruct (IH ({[x]} ∪ seen)) as (Hnd & Hmem & Hsub). split; [|split].
      * constructor; [|done]. rewrite Hmem. set_solver.
      * intros y. rewrite !elem_of_cons, Hmem. split.
        -- intros [->|[? ?]]; [tauto|]. split; [tauto|set_solver].
        -- intros [[->|?] ?]; [tauto|].
           destruct (decide (y = x)) as [->|?]; [tauto|]. right. set_solver.
      * by constructor.
Qed.

Lemma filterBoolean_spec evaluated l :
  l ∈ filterBoolean evaluated ↔ Some l ∈ evaluated ∧ l ≠ [].
Proof.
  unfold filterBoolean. rewrite list_elem_of_omap. split.
  - intros ([[|c s]|] & Hin & Heq); try done. injection Heq as <-. done.
  - intros [Hin Hne]. exists (Some l). split; [done|]. by destruct l.
Qed.

End Dedupe.

(** X9. [extractLinks] returns each address once, in the order of the
    anchors; it returns exactly the addresses that resolved, the [null]s
    and empty strings left out. *)
Theorem extractLinks_distinct (evaluated : list (option (list N))) :
  NoDup (extractLinks evaluated)
  ∧ (∀ l, l ∈ extractLinks evaluated ↔ Some l ∈ evaluated ∧ l ≠ [])
  ∧ extractLinks evaluated `sublist_of` filterBoolean evaluated.
Proof.
  unfold extractLinks.
  destruct (dedupe_spec (filterBoolean evaluated) ∅) as (Hnd & Hmem & Hsub).
  split; [done|]. split; [|done].
  intros l. rewrite Hmem, filterBoolean_spec. set_solver.
Qed.

Section CrawlOrder.

Variable web : Web.
Variable options : Options.
Variable baseUrl : URL.
Variable robotsRules : option RobotsRules.

Local Abbreviation Turn := (Turn web options baseUrl robotsRules).

Lemma turn_permitted st u d rest step :
  permitted web options robotsRules st → Turn st u d rest step →
  permitted web options robotsRules (stateOf step).
Proof.
  unfold permitted. intros Hinv Hturn.
  inversion Hturn; subst; simpl; try done.
  all: apply Forall_app; split; [done|]; by repeat constructor.
Qed.

Lemma turn_byDepth st u d rest step :
  queue st = (u, d) :: rest → layered st → byDepth st →
  Turn st u d rest step → byDepth (stateOf step).
Proof.
  intros Hq Hlay Hord Hturn.
  destruct (layered_pop _ _ _ _ Hq Hlay) as (_ & _ & _ & _ & _ & Hatt).
  rewrite Forall_forall in Hatt.
  assert (Hsnoc : ∀ i j e f, i ≤ j →
            (attempts st ++ [(u, d)]) !! i = Some e →
            (attempts st ++ [(u, d)]) !! j = Some f → e.2 ≤ f.2).
  { intros i j e f Hij Hi Hj.
    apply lookup_app_Some in Hi as [Hi|[Hi1 Hi2]];
      apply lookup_app_Some in Hj as [Hj|[Hj1 Hj2]].
    - by eapply Hord.
    - apply list_lookup_singleton_Some in Hj2 as [_ <-].
      apply list_elem_of_lookup_2 in Hi. by apply Hatt in Hi.
    - apply lookup_lt_Some in Hj. lia.
    - apply list_lookup_singleton_Some in Hi2 as [_ <-].
      apply list_lookup_singleton_Some in Hj2 as [_ <-]. done. }
  inversion Hturn; subst; unfold byDepth; simpl; first [exact Hord|exact Hsnoc].
Qed.

End CrawlOrder.

Section CrawlMore.

Variable web : Web.
Variable options : Options.
Variable startUrl : list N.

(** What holds of the first state and is kept by every turn holds of the
    state a run ends in. *)
Lemma crawl_keeps (P : URL → State → Prop) fuel run st :
  (∀ baseUrl, P baseUrl (initial startUrl)) →
  (∀ baseUrl st u d rest step,
     P baseUrl st → crawlInv web options baseUrl startUrl st →
     queue st = (u, d) :: rest →
     Turn web options baseUrl (loadRobots web options baseUrl) st u d rest step →
     P baseUrl (stateOf step)) →
  crawl web fuel startUrl options = Some run → lastState run = Some st →
  ∃ baseUrl, parseURL web startUrl = Some baseUrl ∧ P baseUrl st.
Proof.
  intros Hinit Hkeep Hrun Hst.
  destruct (crawl_loop _ _ _ _ _ _ Hrun Hst)
    as (baseUrl & step & Hbase & Hloop & <- & _).
  exists baseUrl. split; [done|].
  assert (Hall : P baseUrl (stateOf step)
                 ∧ crawlInv web options baseUrl startUrl (stateOf step)).
  { eapply (loop_invariant web options baseUrl _
              (λ s, P baseUrl s ∧ crawlInv web options baseUrl startUrl s));
      [|split; [apply Hinit|apply crawlInv_initial]|exact Hloop].
    intros st0 u d rest step0 [HP Hinv] Hq Hlt Hturn.
    split; [by eapply Hkeep|by eapply crawlInv_turn]. }
  exact (proj1 Hall).
Qed.

End CrawlMore.

(** X10. With [respectRobotsTxt] on, the browser is never sent to an
    address the robots check turns away. *)
Theorem crawl_respects_robots (web : Web) (fuel : nat) (startUrl : list N)
    (options : Options) (run : Run) (st : State) :
  crawl web fuel startUrl options = Some run →
  lastState run = Some st →
  respectRobotsTxt options = true →
  ∃ baseUrl, parseURL web startUrl = Some baseUrl
    ∧ ∀ u d, (u, d) ∈ attempts st →
        isDisallowed (parseURL web) u (loadRobots web options baseUrl) = false.
Proof.
  intros Hrun Hst Hrespect.
  destruct (crawl_keeps web options startUrl
              (λ baseUrl s,
                 permitted web options (loadRobots web options baseUrl) s)
              fuel run st) as (baseUrl & Hbase & Hperm); [| |done|done|].
  - intros. constructor.
  - intros baseUrl s u d rest step HP _ _ Hturn. by eapply turn_permitted.
  - exists baseUrl. split; [done|]. intros u d Hin.
    unfold permitted in Hperm. rewrite Forall_forall in Hperm.
    apply Hperm in Hin. unfold allowed in Hin. simpl in Hin.
    by rewrite Hrespect in Hin.
Qed.

Lemma crawl_respects_robots_witness :
  ∃ run st,
    crawl Sites.gated 10 (str "https://a.test/") defaultOptions = Some run
    ∧ lastState run = Some st
    ∧ (attempts st).*1 = [str "https://a.test/"; str "https://a.test/public"]
    ∧ respectRobotsTxt defaultOptions = true
    ∧ ∃ baseUrl, parseURL Sites.gated (str "https://a.test/") = Some baseUrl
        ∧ ∀ u d, (u, d) ∈ attempts st →
            isDisallowed (parseURL Sites.gated) u
              (loadRobots Sites.gated defaultOptions baseUrl) = false.
Proof.
  crawled Sites.gated 10 (str "https://a.test/") defaultOptions.
  split; [reflexivity|]. split; [reflexivity|].
  eapply (crawl_respects_robots Sites.gated 10 (str "https://a.test/")
            defaultOptions); [vm_compute; reflexivity|reflexivity|reflexivity].
Defined.

(** X11. Pages are attempted in order of depth: nothing found deeper is
    attempted before something found nearer the start. *)
Theorem crawl_breadth_first (web : Web) (fuel : nat) (startUrl : list N)
    (options : Options) (run : Run) (st : State) :
  crawl web fuel startUrl options = Some run →
  lastState run = Some st →
  ∀ i j e f, i ≤ j →
    attempts st !! i = Some e → attempts st !! j = Some f → e.2 ≤ f.2.
Proof.
  intros Hrun Hst.
  destruct (crawl_keeps web options startUrl (λ _ s, byDepth s) fuel run st)
    as (baseUrl & _ & Hord); [| |done|done|done].
  - intros _ i j e f _ Hi. done.
  - intros baseUrl s u d rest step HP Hinv Hq Hturn.
    destruct Hinv as (_ & _ & _ & _ & _ & _ & Hlay & _).
    by eapply turn_byDepth.
Qed.

Lemma crawl_breadth_first_witness :
  ∃ run st,
    crawl Sites.diamond 10 (str "https://a.test/")
      {| depth := 2; selector := str "body"; maxPages := 100;
         respectRobotsTxt := true; waitTime := 1000 |} = Some run
    ∧ lastState run = Some st
    ∧ (attempts st).*2 = [0; 1; 1; 2]
    ∧ ∀ i j e f, i ≤ j →
        attempts st !! i = Some e → attempts st !! j = Some f → e.2 ≤ f.2.
Proof.
  crawled Sites.diamond 10 (str "https://a.test/")
    {| depth := 2; selector := str "body"; maxPages := 100;
       respectRobotsTxt := true; waitTime := 1000 |}.
  split; [reflexivity|].
  eapply (crawl_breadth_first Sites.diamond 10 (str "https://a.test/")
            {| depth := 2; selector := str "body"; maxPages := 100;
               respectRobotsTxt := true; waitTime := 1000 |});
    [vm_compute; reflexivity|reflexivity].
Defined.

(** X12. The page records are the attempts that loaded, in the order they
    were attempted: a page that fails to load is marked visited, leaves no
    record, and the crawl goes on. *)
Theorem crawl_records_loaded (web : Web) (fuel : nat) (startUrl : list N)
    (options : Options) (run : Run) (st : State) :
  crawl web fuel startUrl options = Some run →
  lastState run = Some st →
  results st =
    omap (λ e, record e.1
                 <$> render web e.1 (selector options) (waitTime options))
         (attempts st)
  ∧ ∀ u d, (u, d) ∈ attempts st → u ∈ visited st.
Proof.
  intros Hrun Hst.
  destruct (crawl_invariant _ _ _ _ _ _ Hrun Hst)
    as (baseUrl & _ & _ & [_ Hvis] & Hrec & _).
  split; [exact Hrec|]. intros u d Hin. apply Hvis.
  apply list_elem_of_fmap. by exists (u, d).
Qed.

Lemma crawl_records_loaded_witness :
  ∃ run st,
    crawl Sites.broken 10 (str "https://a.test/") defaultOptions = Some run
    ∧ lastState run = Some st
    ∧ (attempts st).*1 = [str "https://a.test/"; str "https://a.test/missing";
                          str "https://a.test/ok"]
    ∧ url <$> results st = [str "https://a.test/"; str "https://a.test/ok"]
    ∧ results st =
        omap (λ e, record e.1
                     <$> render Sites.broken e.1 (selector defaultOptions)
                           (waitTime defaultOptions))
             (attempts st)
    ∧ ∀ u d, (u, d) ∈ attempts st → u ∈ visited st.
Proof.
  crawled Sites.broken 10 (str "https://a.test/") defaultOptions.
  split; [reflexivity|]. split; [reflexivity|].
  eapply (crawl_records_loaded Sites.broken 10 (str "https://a.test/")
            defaultOptions); [vm_compute; reflexivity|reflexivity].
Defined.

(** X13. A crawl that returns fewer than [maxPages] records has missed
    nothing: every address that can be discovered within the depth limit,
    is on the start host, passes the robots check and loads has its
    record in the result. *)
Theorem crawl_exhaustive (web : Web) (fuel : nat) (startUrl : list N)
    (options : Options) (st : State) (baseUrl : URL) :
  crawl web fuel startUrl options = Some (Finished st) →
  length (results st) < maxPages options →
  parseURL web startUrl = Some baseUrl →
  ∀ u k page,
    discoverable web options baseUrl (loadRobots web options baseUrl)
      startUrl u k →
    inScope web baseUrl u →
    allowed web options (loadRobots web options baseUrl) u →
    loads web options u page →
    record u page ∈ results st.
Proof.
  intros Hrun Hlt Hbase u k page Hdisc Hscope Hallow Hload.
  destruct (crawl_invariant _ _ _ _ _ st Hrun eq_refl)
    as (baseUrl' & Hbase' & _ & _ & Hrec & _ & _ & _ & _ & Hclosed).
  assert (baseUrl' = baseUrl) as -> by congruence.
  destruct (crawl_loop _ _ _ _ _ st Hrun eq_refl)
    as (baseUrl' & step & Hbase'' & Hloop & _ & Hcont).
  assert (baseUrl' = baseUrl) as -> by congruence.
  rewrite (Hcont st eq_refl) in Hloop.
  destruct (loop_exit _ _ _ _ _ _ _ Hloop) as [Hempty|?]; [|lia].
  destruct (closed_complete _ _ _ _ _ _ _ _ Hempty Hclosed Hdisc Hscope Hallow)
    as (j & _ & Hatt).
  by eapply recorded_loaded.
Qed.

Lemma crawl_exhaustive_witness :
  ∃ st page,
    crawl Sites.chain 10 (str "https://a.test/") defaultOptions
      = Some (Finished st)
    ∧ length (results st) < maxPages defaultOptions
    ∧ loads Sites.chain defaultOptions (str "https://a.test/1") page
    ∧ record (str "https://a.test/1") page ∈ results st.
Proof.
  pose (base := {| protocol := str "https:"; hostname := str "a.test";
                   port := []; pathname := str "/" |}).
  let r := eval vm_compute in
             (crawl Sites.chain 10 (str "https://a.test/") defaultOptions) in
  lazymatch r with
  | Some (Finished ?st) => exists st
  end.
  let r := eval vm_compute in
             (render Sites.chain (str "https://a.test/1")
                (selector defaultOptions) (waitTime defaultOptions)) in
  lazymatch r with
  | Some ?page => exists page
  end.
  assert (Hload : ∀ u page,
            render Sites.chain u (selector defaultOptions)
              (waitTime defaultOptions) = Some page →
            loads Sites.chain defaultOptions u page) by (intros; done).
  split; [vm_compute; reflexivity|]. split; [vm_compute; lia|].
  split; [apply Hload; vm_compute; reflexivity|].
  eapply (crawl_exhaustive Sites.chain 10 (str "https://a.test/")
            defaultOptions _ base) with (k := 1).
  - vm_compute; reflexivity.
  - vm_compute; lia.
  - vm_compute; reflexivity.
  - eapply disc_link with (p := str "https://a.test/").
    + constructor.
    + vm_compute; lia.
    + exists base. split; vm_compute; reflexivity.
    + vm_compute; reflexivity.
    + apply Hload. vm_compute; reflexivity.
    + apply list_elem_of_In. vm_compute. tauto.
  - eexists. split; vm_compute; reflexivity.
  - vm_compute; reflexivity.
  - apply Hload. vm_compute; reflexivity.
Defined.

(** X14. With [depth = 0] only the start address is ever attempted, and
    at most one record comes back. *)
Theorem crawl_depth_zero (web : Web) (fuel : nat) (startUrl : list N)
    (options : Options) (run : Run) (st : State) :
  crawl web fuel startUrl options = Some run →
  lastState run = Some st →
  depth options = 0 →
  (∀ u d, (u, d) ∈ attempts st → u = startUrl ∧ d = 0)
  ∧ length (results st) ≤ 1.
Proof.
  intros Hrun Hst Hzero.
  destruct (crawl_invariant _ _ _ _ _ _ Hrun Hst)
    as (baseUrl & _ & _ & [Hnd _] & Hrec & Hshallow & Hlinked & _).
  unfold shallow in Hshallow. unfold linked in Hlinked.
  rewrite Forall_forall in Hshallow, Hlinked.
  assert (Hseed : ∀ u d, (u, d) ∈ attempts st → u = startUrl ∧ d = 0).
  { intros u d Hin.
    assert (Hin' : (u, d) ∈ queue st ++ attempts st)
      by (apply elem_of_app; auto).
    pose proof (Hshallow _ Hin') as Hd. simpl in Hd.
    destruct (Hlinked _ Hin') as [[= -> ->]|(p & k & page & Hk & _)]; [done|].
    simpl in Hk. lia. }
  split; [exact Hseed|].
  apply recorded_urls in Hrec. apply sublist_length in Hrec.
  rewrite !length_fmap in Hrec.
  assert (length (attempts st) ≤ 1); [|lia].
  destruct (attempts st) as [|[u1 d1] [|[u2 d2] rest]]; simpl; try lia.
  exfalso. destruct (Hseed u1 d1) as [-> _]; [set_solver|].
  destruct (Hseed u2 d2) as [-> _]; [set_solver|].
  simpl in Hnd. apply NoDup_cons in Hnd as [Hnotin _]. set_solver.
Qed.

Lemma crawl_depth_zero_witness :
  ∃ run st,
    crawl Sites.chain 10 (str "https://a.test/")
      {| depth := 0; selector := str "body"; maxPages := 100;
         respectRobotsTxt := true; waitTime := 1000 |} = Some run
    ∧ lastState run = Some st
    ∧ (∀ u d, (u, d) ∈ attempts st → u = str "https://a.test/" ∧ d = 0)
    ∧ length (results st) ≤ 1.
Proof.
  crawled Sites.chain 10 (str "https://a.test/")
    {| depth := 0; selector := str "body"; maxPages := 100;
       respectRobotsTxt := true; waitTime := 1000 |}.
  eapply (crawl_depth_zero Sites.chain 10 (str "https://a.test/")
            {| depth := 0; selector := str "body"; maxPages := 100;
               respectRobotsTxt := true; waitTime := 1000 |});
    [vm_compute; reflexivity|reflexivity|reflexivity].
Defined.

(** ** More on [processText] *)

Section PromptFacts.

Lemma lowerUnit_idemp c : lowerUnit (lowerUnit c) = lowerUnit c.
Proof.
  unfold lowerUnit. destruct ((65 <=? c) && (c <=? 90))%N eqn:Hc; [|by rewrite Hc].
  apply andb_true_iff in Hc as [H1 H2]. apply N.leb_le in H1, H2.
  replace ((65 <=? c + 32) && (c + 32 <=? 90))%N with false; [done|].
  symmetry. apply andb_false_iff. right. apply N.leb_gt. lia.
Qed.

Lemma toLowerCase_idemp s : toLowerCase (toLowerCase s) = toLowerCase s.
Proof.
  unfold toLowerCase. rewrite map_map. apply map_ext. apply lowerUnit_idemp.
Qed.

Lemma contains_middle a x b : contains x (a ++ x ++ b).
Proof. by exists a, b. Qed.

End PromptFacts.

(** X15. When the pages' combined text has at most 100000 code units
    there is one chunk and one call: the result is what that call gave, or
    the error note, with no combining call; an empty list of pages still
    makes that one call, on an empty document. *)
Theorem processText_single_chunk (client : Client) (now : list N)
    (crawlResults : list PageData) (options : ProcessOptions) :
  length (combineText crawlResults) ≤ N.to_nat 100000 →
  processText (Some client) now crawlResults options
  = Some (Synthesis (task options)
            (match client 0 (request options
                               (promptFor (task options)
                                  (combineText crawlResults))) with
             | inl text => text
             | inr message =>
                 str "[Error processing chunk 1: " ++ message ++ str "]"
             end)
            {| metaModel := model options; processedAt := now;
               pagesProcessed := length crawlResults; chunksProcessed := 1 |}
            crawlResults).
Proof.
  intros Hshort. unfold processText, createChunks.
  rewrite (proj2 (Nat.leb_le _ _) Hshort). simpl.
  unfold errorNote.
  destruct (client 0 _) as [text|message]; simpl; done.
Qed.

Lemma processText_single_chunk_witness :
  length (combineText []) ≤ N.to_nat 100000
  ∧ processText (Some (secondFails (inl (str "merged"))))
      (str "2024-01-01T00:00:00.000Z") [] defaultProcessOptions
    = Some (Synthesis (str "summarize") (str "summary")
              {| metaModel := str "claude-3-sonnet-20240229";
                 processedAt := str "2024-01-01T00:00:00.000Z";
                 pagesProcessed := 0; chunksProcessed := 1 |}
              []).
Proof.
  split; [apply Nat.le_0_l|].
  apply (processText_single_chunk (secondFails (inl (str "merged")))
           (str "2024-01-01T00:00:00.000Z") [] defaultProcessOptions).
  apply Nat.le_0_l.
Defined.

(** X16. Whatever the task, the prompt holds the chunk unchanged; and the
    four known tasks are recognised whatever the case of their letters. *)
Theorem promptFor_keeps_chunk (task chunk : list N) :
  contains chunk (promptFor task chunk)
  ∧ (toLowerCase task ∈ [str "summarize"; str "extract"; str "analyze";
                         str "questions"] →
     promptFor task chunk = promptFor (toLowerCase task) chunk).
Proof.
  split.
  - unfold promptFor. repeat case_decide; try apply contains_middle.
    rewrite !app_assoc. exists (str "Please " ++ task ++
      str " the following web content:

"), []. by rewrite app_nil_r, <- !app_assoc.
  - intros Hknown. unfold promptFor. rewrite toLowerCase_idemp.
    repeat case_decide; try done.
    exfalso. set_solver.
Qed.

Lemma promptFor_keeps_chunk_witness :
  promptFor (str "SUMMARIZE") (str "text")
  = promptFor (toLowerCase (str "SUMMARIZE")) (str "text").
Proof.
  apply (promptFor_keeps_chunk (str "SUMMARIZE") (str "text")).
  apply list_elem_of_here.
Defined.

(** ** [estimateTokenCount] *)

(** X17. The estimate is the number of code units over four, rounded up:
    four times the estimate covers the text and overshoots by less than
    four; it is 0 only for the empty text, and the estimates of two parts
    cover the estimate of the whole. *)
Theorem estimateTokenCount_ceiling (text more : list N) :
  length text ≤ 4 * estimateTokenCount text
  ∧ 4 * estimateTokenCount text < length text + 4
  ∧ (estimateTokenCount text = 0 ↔ text = [])
  ∧ estimateTokenCount (text ++ more)
    ≤ estimateTokenCount text + estimateTokenCount more.
Proof.
  unfold estimateTokenCount. rewrite length_app.
  pose proof (Nat.div_mod_eq (length text + 3) 4).
  pose proof (Nat.mod_upper_bound (length text + 3) 4).
  pose proof (Nat.div_mod_eq (length more + 3) 4).
  pose proof (Nat.mod_upper_bound (length more + 3) 4).
  pose proof (Nat.div_mod_eq (length text + length more + 3) 4).
  pose proof (Nat.mod_upper_bound (length text + length more + 3) 4).
  repeat split; try lia.
  - intros Hz. destruct text; [done|]. simpl in *. lia.
  - intros ->. done.
Qed.
